(** * jinqu: the array query provider

    A shallow embedding of [src/lib/array-query-provider.ts]: the executor
    ([execute], [handlePart], the [funcs] table), the ordering fusion
    ([orderBy]) and the operator library, followed by the properties the
    specification states about them.

    JavaScript values are embedded as the fragment [value] below: [undefined],
    [null], booleans, integer numbers, [NaN], arrays, arrays carrying a [key]
    property (the groups built by [groupBy]) and generator objects.  Strings,
    fractional numbers, plain objects and function values are outside the
    fragment.  Callbacks (the [func] of a part argument) are pure total
    functions from the argument list to a value.  Object identity is not part
    of the embedding: two array values are the same object when they are
    equal. *)

From Stdlib Require Import String Ascii DecimalString.
From Stdlib Require Import ZArith List Bool Lia Permutation Sorted.
Import ListNotations.
Local Open Scope Z_scope.
Set Warnings "-register-all".

(** ** Operator kinds

    Modelled from the spec: [QueryFunc] lives in [./query-part], which is not
    part of the sources at hand.  The specification describes the operator
    kind as a fixed closed set; it is the keys of the [funcs] table together
    with the four ordering kinds named by [thenFuncs] and [descFuncs]. *)
Inductive QueryFunc : Type :=
| QF_where | QF_ofType | QF_cast | QF_select | QF_selectMany | QF_joinWith
| QF_groupJoin | QF_orderBy | QF_orderByDescending | QF_thenBy
| QF_thenByDescending | QF_take | QF_takeWhile | QF_skip | QF_skipWhile
| QF_groupBy | QF_distinct | QF_concatWith | QF_zip | QF_union | QF_intersect
| QF_except | QF_defaultIfEmpty | QF_reverse | QF_first | QF_firstOrDefault
| QF_last | QF_lastOrDefault | QF_single | QF_singleOrDefault | QF_elementAt
| QF_elementAtOrDefault | QF_contains | QF_sequenceEqual | QF_any | QF_all
| QF_count | QF_min | QF_max | QF_sum | QF_average | QF_aggregate.

Definition QueryFunc_eq_dec (a b : QueryFunc) : {a = b} + {a <> b}.
Proof. decide equality. Defined.

(** ** Errors

    One constructor per [throw] of the source, named after the error kinds of
    the specification, and [TypeError] for the faults the host raises itself
    (reading a property of [undefined] or [null], calling what is not a
    function, iterating what is not iterable). *)
Inductive error : Type :=
| InvalidSource                      (* 'Cannot query null array.' *)
| UnknownOperator (t : QueryFunc)    (* 'Unknown query part type ...' *)
| InvalidCast                        (* 'Unable to cast ...' *)
| EmptySequence                      (* 'Sequence contains no element' *)
| NoMatch                            (* 'Sequence contains no matching element' *)
| MultipleMatches                    (* 'Sequence contains more than one matching element' *)
| IndexOutOfRange                    (* 'Index was outside the bounds of the array.' *)
| TypeError.

Inductive result (A : Type) : Type :=
| Ok (a : A)
| Throw (err : error).
Arguments Ok {A} a.
Arguments Throw {A} err.

Definition bind {A B : Type} (r : result A) (k : A -> result B) : result B :=
  match r with
  | Ok a => k a
  | Throw err => Throw err
  end.

Notation "x <- r ;; k" := (bind r (fun x => k))
  (at level 61, r at next level, right associativity).

(** ** Values *)

(** A generator object is embedded by what draining it gives: the items it
    yields, in order, and how it ends ([None]: it returns; [Some err]: the
    pull after the last item throws [err]). *)
Inductive value : Type :=
| VUndefined
| VNull
| VBool (b : bool)
| VNum (n : Z)
| VNaN
| VArr (xs : list value)
| VGroup (key : value) (xs : list value)
| VGen (ys : list value) (e : option error).

(** *** The host's conversions *)

(** [!!v]. *)
Definition truthy (v : value) : bool :=
  match v with
  | VUndefined | VNull | VNaN => false
  | VBool b => b
  | VNum n => negb (n =? 0)
  | VArr _ | VGroup _ _ | VGen _ _ => true
  end.

Definition is_object (v : value) : bool :=
  match v with
  | VArr _ | VGroup _ _ | VGen _ _ => true
  | _ => false
  end.

(** [String(v)]: an array renders its items separated by commas, [undefined]
    and [null] items as the empty string. *)
Fixpoint to_string (v : value) : string :=
  match v with
  | VUndefined => "undefined"%string
  | VNull => "null"%string
  | VBool true => "true"%string
  | VBool false => "false"%string
  | VNum n => NilZero.string_of_int (Z.to_int n)
  | VNaN => "NaN"%string
  | VArr xs | VGroup _ xs =>
      String.concat ","%string
        (map (fun x => match x with
                       | VUndefined | VNull => EmptyString
                       | _ => to_string x
                       end) xs)
  | VGen _ _ => "[object Generator]"%string
  end.

(** [Number(v)], [None] for [NaN].  An object converts through its string:
    the empty array is [0], a one-item array converts as its item's string
    does, anything longer contains a comma and is [NaN]. *)
Fixpoint to_number (v : value) : option Z :=
  match v with
  | VUndefined => None
  | VNull => Some 0
  | VBool b => Some (if b then 1 else 0)
  | VNum n => Some n
  | VNaN => None
  | VArr xs | VGroup _ xs =>
      match xs with
      | [] => Some 0
      | [x] => match x with
               | VUndefined | VNull => Some 0
               | VNum n => Some n
               | VArr _ | VGroup _ _ => to_number x
               | VBool _ | VNaN | VGen _ _ => None
               end
      | _ => None
      end
  | VGen _ _ => None
  end.

(** The abstract relational comparison behind [<], [>], [<=] and [>=]: two
    objects compare as their strings, anything else as numbers; [None] is
    the undefined outcome (a [NaN] operand), for which all four are false. *)
Definition js_compare (a b : value) : option comparison :=
  if is_object a && is_object b
  then Some (String.compare (to_string a) (to_string b))
  else match to_number a, to_number b with
       | Some x, Some y => Some (x ?= y)
       | _, _ => None
       end.

Definition js_lt (a b : value) : bool :=
  match js_compare a b with Some Lt => true | _ => false end.
Definition js_gt (a b : value) : bool :=
  match js_compare a b with Some Gt => true | _ => false end.
Definition js_le (a b : value) : bool :=
  match js_compare a b with Some Lt | Some Eq => true | _ => false end.
Definition js_ge (a b : value) : bool :=
  match js_compare a b with Some Gt | Some Eq => true | _ => false end.

(** Structural equality of values, the embedding's object identity. *)
Definition error_eqb (a b : error) : bool :=
  match a, b with
  | InvalidSource, InvalidSource => true
  | UnknownOperator s, UnknownOperator t =>
      if QueryFunc_eq_dec s t then true else false
  | InvalidCast, InvalidCast => true
  | EmptySequence, EmptySequence => true
  | NoMatch, NoMatch => true
  | MultipleMatches, MultipleMatches => true
  | IndexOutOfRange, IndexOutOfRange => true
  | TypeError, TypeError => true
  | _, _ => false
  end.

Fixpoint same_object (a b : value) : bool :=
  let fix items (xs ys : list value) : bool :=
    match xs, ys with
    | [], [] => true
    | x :: xs', y :: ys' => same_object x y && items xs' ys'
    | _, _ => false
    end in
  match a, b with
  | VUndefined, VUndefined => true
  | VNull, VNull => true
  | VBool x, VBool y => Bool.eqb x y
  | VNum x, VNum y => x =? y
  | VNaN, VNaN => true
  | VArr xs, VArr ys => items xs ys
  | VGroup k xs, VGroup l ys => same_object k l && items xs ys
  | VGen xs e, VGen ys f =>
      items xs ys &&
      match e, f with
      | None, None => true
      | Some x, Some y => error_eqb x y
      | _, _ => false
      end
  | _, _ => false
  end.

(** [a === b]. *)
Definition strict_eq (a b : value) : bool :=
  match a, b with
  | VNaN, _ | _, VNaN => false
  | _, _ => same_object a b
  end.

(** [a == b]: [null] and [undefined] equal each other and nothing else,
    booleans compare as numbers, an object meets a primitive through its
    string, two objects are equal when they are the same object. *)
Definition loose_eq (a b : value) : bool :=
  match a, b with
  | (VUndefined | VNull), (VUndefined | VNull) => true
  | (VUndefined | VNull), _ | _, (VUndefined | VNull) => false
  | VNaN, _ | _, VNaN => false
  | _, _ =>
      if is_object a && is_object b then same_object a b
      else match to_number a, to_number b with
           | Some x, Some y => x =? y
           | _, _ => false
           end
  end.

(** Modelled from the spec: [deepEqual] is the [deep-equal] package, an
    external dependency.  The specification calls it deep structural
    equality, comparing the contents of composite values and not their
    identity; primitives are compared with [==]. *)
Fixpoint deepEqual (a b : value) : bool :=
  let fix items (xs ys : list value) : bool :=
    match xs, ys with
    | [], [] => true
    | x :: xs', y :: ys' => deepEqual x y && items xs' ys'
    | _, _ => false
    end in
  match a, b with
  | VArr xs, VArr ys => items xs ys
  | VGroup k xs, VGroup l ys => deepEqual k l && items xs ys
  | VGen xs e, VGen ys f => same_object a b
  | _, _ => if is_object a || is_object b then false else loose_eq a b
  end.

(** ** Query parts

    [IPartArgument] and [IQueryPart] are declared in [./types]; the source
    reads the properties [func] and [literal] of an argument and [type] and
    [args] of a part.  A declared parameter of an operator is an
    [option PartArgument]: [None] when the part carries no argument at that
    position, which the operator receives as [undefined]. *)
Definition fn : Type := list value -> value.

Record PartArgument : Type := { func : option fn; literal : value }.

Record QueryPart : Type := { type : QueryFunc; args : list PartArgument }.

Definition arg : Type := option PartArgument.

(** [a.func] and [a.literal]: reading a property of [undefined] throws. *)
Definition get_func (a : arg) : result (option fn) :=
  match a with
  | Some p => Ok (func p)
  | None => Throw TypeError
  end.

Definition get_literal (a : arg) : result value :=
  match a with
  | Some p => Ok (literal p)
  | None => Throw TypeError
  end.

(** [a.func(x1, ..., xn)]: calling [undefined] throws. *)
Definition call_func (a : arg) (xs : list value) : result value :=
  f <- get_func a ;;
  match f with
  | Some g => Ok (g xs)
  | None => Throw TypeError
  end.

(** [a.literal(i)] and [i instanceof a.literal]: no value of the fragment is
    a function, so both throw once [a.literal] has been read. *)
Definition call_literal (a : arg) (i : value) : result value :=
  _ <- get_literal a ;; Throw TypeError.

Definition instance_of (i : value) (a : arg) : result bool :=
  _ <- get_literal a ;; Throw TypeError.

(** [a[i]] for a part argument [a] and a number [i]: an argument has the
    properties [func] and [literal] only. *)
Definition part_argument_get (a : PartArgument) (i : value) : value :=
  VUndefined.

Definition getArray (a : arg) : result value :=
  f <- get_func a ;;
  match f with
  | Some g => Ok (g [])
  | None => get_literal a
  end.

(** *** Arrays as the host sees them *)

(** [o.length]. *)
Definition length_of (o : value) : result value :=
  match o with
  | VUndefined | VNull => Throw TypeError
  | VArr xs | VGroup _ xs => Ok (VNum (Z.of_nat (length xs)))
  | _ => Ok VUndefined
  end.

(** The array index a property key denotes: the key's string has to be the
    decimal rendering of a natural number. *)
Fixpoint index_of_key (k : value) : option nat :=
  match k with
  | VNum n => if 0 <=? n then Some (Z.to_nat n) else None
  | VArr xs | VGroup _ xs =>
      match xs with
      | [x] => match x with
               | VNum _ | VArr _ | VGroup _ _ => index_of_key x
               | _ => None
               end
      | _ => None
      end
  | _ => None
  end.

(** [o[k]]. *)
Definition get_property (o k : value) : result value :=
  match o with
  | VUndefined | VNull => Throw TypeError
  | VArr xs | VGroup _ xs =>
      Ok (match index_of_key k with
          | Some i => nth i xs VUndefined
          | None => VUndefined
          end)
  | _ => Ok VUndefined
  end.

(** The receiver of [slice] and [indexOf]: anything but an array has no
    such method. *)
Definition as_array (o : value) : result (list value) :=
  match o with
  | VArr xs | VGroup _ xs => Ok xs
  | _ => Throw TypeError
  end.

(** The callbacks of the array methods receive the item, its index and the
    array. *)
Definition with_index (xs : list value) : list (list value) :=
  map (fun '(i, x) => [x; VNum (Z.of_nat i); VArr xs])
      (combine (seq 0 (length xs)) xs).

(** A generator object has no [slice] and no [indexOf], but it inherits
    [filter], [map], [some], [every] and [reduce] from [Iterator.prototype]
    (the iterator helpers of ECMAScript 2025).  They pull from the
    generator and call back with the item and its index. *)
Definition with_counter (ys : list value) : list (list value) :=
  map (fun '(i, y) => [y; VNum (Z.of_nat i)])
      (combine (seq 0 (length ys)) ys).

(** *** Generators *)

(** What a [for ... of] loop over a value pulls: the items, and how the
    iteration ends. *)
Definition run : Type := (list value * option error)%type.

Definition iterate (o : value) : run :=
  match o with
  | VArr xs | VGroup _ xs => (xs, None)
  | VGen ys e => (ys, e)
  | _ => ([], Some TypeError)
  end.

(** A generator object that has been drained yields nothing more. *)
Definition drained (o : value) : value :=
  match o with
  | VGen _ _ => VGen [] None
  | _ => o
  end.

(** One turn of a loop body: the items it yields, and whether the loop goes
    on, is left by [break], or is left by a [throw]. *)
Inductive step (S : Type) : Type :=
| Continue (out : list value) (s : S)
| Break (out : list value) (s : S)
| Raise (out : list value) (err : error).
Arguments Continue {S} out s.
Arguments Break {S} out s.
Arguments Raise {S} out err.

(** [for (let x of xs) body], threading the loop's local state.  When the
    items run out the loop ends as the iterated sequence does. *)
Fixpoint for_of {S : Type} (body : S -> value -> step S) (s : S)
    (xs : list value) (e : option error) : list value * result S :=
  match xs with
  | [] => ([], match e with
               | None => Ok s
               | Some err => Throw err
               end)
  | x :: xs' =>
      match body s x with
      | Continue out s' =>
          let (ys, r) := for_of body s' xs' e in (out ++ ys, r)
      | Break out s' => (out, Ok s')
      | Raise out err => (out, Throw err)
      end
  end.

Definition for_of_value {S : Type} (body : S -> value -> step S) (s : S)
    (o : value) : list value * result S :=
  for_of body s (fst (iterate o)) (snd (iterate o)).

(** The object a generator function returns for a body that runs as [b]. *)
Definition generator {S : Type} (b : list value * result S) : value :=
  VGen (fst b) (match snd b with
                | Ok _ => None
                | Throw err => Some err
                end).

(** A statement of a generator body that may throw before the rest runs. *)
Definition try {A S : Type} (r : result A)
    (k : A -> list value * result S) : list value * result S :=
  match r with
  | Ok a => k a
  | Throw err => ([], Throw err)
  end.

(** Running [rest] after the part of a body that yielded [b]. *)
Definition and_then {S T : Type} (b : list value * result S)
    (rest : S -> list value * result T) : list value * result T :=
  match snd b with
  | Ok s => let (ys, r) := rest s in (fst b ++ ys, r)
  | Throw err => (fst b, Throw err)
  end.

(** A loop body step from a computation that may throw. *)
Definition stepping {A S : Type} (r : result A) (k : A -> step S) : step S :=
  match r with
  | Ok a => k a
  | Throw err => Raise [] err
  end.

(** ** The operator library: sequence operators

    Every [function*] returns a generator object at once; its body runs as
    the object is drained, so what the body throws is the generator's
    ending, not the call's. *)

Definition where_ (items : value) (predicate : arg) : result value :=
  Ok (generator (for_of_value
    (fun (_ : unit) i =>
       stepping (call_func predicate [i]) (fun b =>
       Continue (if truthy b then [i] else []) tt))
    tt items)).

Definition ofType (items : value) (ctor : arg) : result value :=
  Ok (generator (for_of_value
    (fun (_ : unit) i =>
       if negb (is_object i)
       then stepping (call_literal ctor i) (fun v =>
            Continue (if strict_eq v i then [i] else []) tt)
       else stepping (instance_of i ctor) (fun b =>
            Continue (if b then [i] else []) tt))
    tt items)).

(** [i.constructor !== Object] holds of every object of the fragment, so the
    [instanceof] test is always evaluated. *)
Definition cast (items : value) (ctor : arg) : result value :=
  Ok (generator (for_of_value
    (fun (_ : unit) i =>
       if negb (is_object i)
       then stepping (call_literal ctor i) (fun v =>
            if strict_eq v VNaN || strict_eq v VNull
            then Raise [] InvalidCast
            else Continue [v] tt)
       else stepping (instance_of i ctor) (fun b =>
            if negb b then Raise [] InvalidCast else Continue [i] tt))
    tt items)).

Definition select (items : value) (selector : arg) : result value :=
  Ok (generator (for_of_value
    (fun (_ : unit) i =>
       stepping (call_func selector [i]) (fun v => Continue [v] tt))
    tt items)).

Definition selectMany (items : value) (selector : arg) : result value :=
  Ok (generator (for_of_value
    (fun (_ : unit) i =>
       stepping (call_func selector [i]) (fun inner =>
       match snd (iterate inner) with
       | None => Continue (fst (iterate inner)) tt
       | Some err => Raise (fst (iterate inner)) err
       end))
    tt items)).

(** The inner loop runs over [os] once per item; the loop state is [os] as
    the next turn finds it. *)
Definition joinWith (items : value) (other thisKey otherKey selector : arg)
    : result value :=
  Ok (generator (
    try (getArray other) (fun os =>
    for_of_value
      (fun (os : value) i =>
         stepping (call_func thisKey [i]) (fun k =>
         let inner :=
           for_of_value
             (fun (_ : unit) o =>
                stepping (call_func otherKey [o]) (fun ok =>
                if deepEqual ok k
                then stepping (call_func selector [i; o]) (fun r =>
                     Continue [r] tt)
                else Continue [] tt))
             tt os in
         match snd inner with
         | Ok _ => Continue (fst inner) (drained os)
         | Throw err => Raise (fst inner) err
         end))
      os items))).

Fixpoint filterM (p : value -> result bool) (xs : list value)
    : result (list value) :=
  match xs with
  | [] => Ok []
  | x :: xs' =>
      b <- p x ;;
      ys <- filterM p xs' ;;
      Ok (if b then x :: ys else ys)
  end.

(** What the helper object of [filter] on a generator yields: the items
    [p] accepts, up to the first on which [p] throws. *)
Fixpoint filter_run (p : value -> result bool) (ys : list value)
    (e : option error) : list value * option error :=
  match ys with
  | [] => ([], e)
  | y :: ys' =>
      match p y with
      | Throw err => ([], Some err)
      | Ok b =>
          let (zs, e') := filter_run p ys' e in
          (if b then y :: zs else zs, e')
      end
  end.

(** [o.filter(p)].  On an array the callback runs at once and the result
    is an array.  On a generator the result is a helper object that has
    pulled nothing yet; it is denoted by what it yields when it is the
    first to pull from the generator. *)
Definition filter_of (o : value) (p : value -> result bool) : result value :=
  match o with
  | VArr xs | VGroup _ xs => ys <- filterM p xs ;; Ok (VArr ys)
  | VGen ys e => Ok (VGen (fst (filter_run p ys e)) (snd (filter_run p ys e)))
  | _ => Throw TypeError
  end.

Definition groupJoin (items : value) (other thisKey otherKey selector : arg)
    : result value :=
  Ok (generator (
    try (getArray other) (fun os =>
    for_of_value
      (fun (_ : unit) i =>
         stepping (call_func thisKey [i]) (fun k =>
         stepping (_ <- get_func selector ;;
                   ys <- filter_of os (fun o => ok <- call_func otherKey [o] ;;
                                                Ok (deepEqual ok k)) ;;
                   call_func selector [i; ys])
                  (fun r => Continue [r] tt)))
      tt items))).

(** The loop state of [take] and [skip] is the counter [i]. *)
Definition take_turn (count : arg) (i : Z) (item : value) : step Z :=
  stepping (get_literal count) (fun n =>
  if js_le (VNum (i + 1)) n
  then Continue [item] (i + 1)
  else Break [] (i + 1)).

Definition take (items : value) (count : arg) : result value :=
  Ok (generator (for_of_value (take_turn count) 0 items)).

Definition takeWhile (items : value) (predicate : arg) : result value :=
  Ok (generator (for_of_value
    (fun (_ : unit) i =>
       stepping (call_func predicate [i]) (fun b =>
       if truthy b then Continue [i] tt else Break [] tt))
    tt items)).

Definition skip (items : value) (count : arg) : result value :=
  Ok (generator (for_of_value
    (fun (i : Z) item =>
       stepping (get_literal count) (fun n =>
       Continue (if js_gt (VNum (i + 1)) n then [item] else []) (i + 1)))
    0 items)).

Definition skipWhile (items : value) (predicate : arg) : result value :=
  Ok (generator (for_of_value
    (fun (_ : unit) i =>
       stepping (call_func predicate [i]) (fun b =>
       if truthy b then Break [] tt else Continue [i] tt))
    tt items)).

(** A group under construction: its [key] property and its items. *)
Definition group : Type := (value * list value)%type.

Definition group_value (g : group) : value := VGroup (fst g) (snd g).

(** [groups.find(g => deepEqual(g.key, k))] followed by [a.push(i)] on the
    group found; [None] when [find] returns [undefined]. *)
Fixpoint push_to_group (k i : value) (groups : list group)
    : option (list group) :=
  match groups with
  | [] => None
  | g :: rest =>
      if deepEqual (fst g) k
      then Some ((fst g, snd g ++ [i]) :: rest)
      else option_map (cons g) (push_to_group k i rest)
  end.

(** One turn of the first loop of [groupBy]. *)
Definition groupBy_turn (groups : list group) (k i : value) : list group :=
  match push_to_group k i groups with
  | None => groups ++ [(k, [])]
  | Some groups' => groups'
  end.

Definition groupBy_groups (keySelector : arg) (items : value)
    : list value * result (list group) :=
  for_of_value
    (fun (groups : list group) i =>
       stepping (call_func keySelector [i]) (fun k =>
       Continue [] (groupBy_turn groups k i)))
    [] items.

Definition groupBy (items : value) (keySelector valueSelector : arg)
    : result value :=
  Ok (generator (
    and_then (groupBy_groups keySelector items) (fun groups =>
    for_of
      (fun (_ : unit) g =>
         stepping (call_func valueSelector [g]) (fun v => Continue [v] tt))
      tt (map group_value groups) None))).

(** The inner loop of [distinct], over [items[j]] for [j] from [i] on:
    whether it is left by [break]. *)
Fixpoint distinct_inner (comparer : arg) (i1 : value) (xs : list value)
    : result bool :=
  match xs with
  | [] => Ok false
  | i2 :: rest =>
      f <- get_func comparer ;;
      if match f with
         | Some g => truthy (g [i1; i2])
         | None => loose_eq i1 i2
         end
      then Ok true
      else distinct_inner comparer i1 rest
  end.

(** The outer loop of [distinct]; [xs] is [items] from index [i] on, so the
    inner loop, which starts at [j = i], runs over all of [xs]. *)
Fixpoint distinct_outer (comparer : arg) (xs : list value)
    : list value * result unit :=
  match xs with
  | [] => ([], Ok tt)
  | i1 :: rest =>
      match distinct_inner comparer i1 (i1 :: rest) with
      | Throw err => ([], Throw err)
      | Ok broke =>
          let (ys, r) := distinct_outer comparer rest in
          ((if broke then [] else [i1]) ++ ys, r)
      end
  end.

(** [i < items.length] is false from the start when [items] has no numeric
    [length]. *)
Definition distinct (items : value) (comparer : arg) : result value :=
  Ok (generator (
    try (length_of items) (fun _ =>
    match items with
    | VArr xs | VGroup _ xs => distinct_outer comparer xs
    | _ => ([], Ok tt)
    end))).

Definition concatWith (items : value) (other : arg) : result value :=
  Ok (generator (
    try (getArray other) (fun os =>
    and_then
      (for_of_value (fun (_ : unit) i => Continue [i] tt) tt items)
      (fun _ => for_of_value (fun (_ : unit) o => Continue [o] tt) tt os)))).

(** [Math.min(a, b)], [None] for [NaN]. *)
Definition math_min (a b : value) : option Z :=
  match to_number a, to_number b with
  | Some x, Some y => Some (Z.min x y)
  | _, _ => None
  end.

(** The values [i] takes in [for (i = 0; i < l; i++)]. *)
Definition range (l : option Z) : list value :=
  match l with
  | Some n => map (fun i => VNum (Z.of_nat i)) (seq 0 (Z.to_nat n))
  | None => []
  end.

(** The second argument of the selector is [other[i]], read from the part
    argument [other] and not from the array [os]. *)
Definition zip (items : value) (other selector : arg) : result value :=
  Ok (generator (
    try (getArray other) (fun os =>
    try (li <- length_of items ;;
         lo <- length_of os ;;
         Ok (math_min li lo)) (fun l =>
    for_of
      (fun (_ : unit) i =>
         stepping (a <- get_property items i ;;
                   call_func selector
                     [a; match other with
                         | Some p => part_argument_get p i
                         | None => VUndefined
                         end])
                  (fun r => Continue [r] tt))
      tt (range l) None)))).

(** [s.has(x)] for a [Set] holding the items [s]. *)
Definition set_has (s : list value) (x : value) : bool :=
  existsb (same_object x) s.

(** The body shared by the three set operators: yield an item the first
    time it is met, when [keep] accepts it. *)
Definition set_turn (keep : value -> bool) (s : list value) (i : value)
    : step (list value) :=
  if keep i && negb (set_has s i)
  then Continue [i] (s ++ [i])
  else Continue [] s.

Definition union (items : value) (other : arg) : result value :=
  Ok (generator (
    and_then (for_of_value (set_turn (fun _ => true)) [] items) (fun s =>
    try (getArray other) (fun os =>
    for_of_value (set_turn (fun _ => true)) s os)))).

(** [new Set(o)]: [undefined] and [null] give the empty set, anything else
    is iterated. *)
Definition new_set (o : value) : result (list value) :=
  match o with
  | VUndefined | VNull => Ok []
  | _ => match snd (iterate o) with
         | None => Ok (fst (iterate o))
         | Some err => Throw err
         end
  end.

Definition intersect (items : value) (other : arg) : result value :=
  Ok (generator (
    try (o <- getArray other ;; new_set o) (fun os =>
    for_of_value (set_turn (fun i => set_has os i)) [] items))).

Definition except (items : value) (other : arg) : result value :=
  Ok (generator (
    try (o <- getArray other ;; new_set o) (fun os =>
    for_of_value (set_turn (fun i => negb (set_has os i))) [] items))).

Definition defaultIfEmpty (items : value) : result value :=
  Ok (if truthy items then items else VArr []).

(** The values [i] takes in [for (i = len; i >= 0; i--)]. *)
Definition countdown (len : value) : list value :=
  match to_number len with
  | Some n => map (fun i => VNum (Z.of_nat i)) (rev (seq 0 (Z.to_nat (n + 1))))
  | None => []
  end.

Definition reverse (items : value) : result value :=
  Ok (generator (
    try (length_of items) (fun len =>
    for_of
      (fun (_ : unit) i =>
         stepping (get_property items i) (fun x => Continue [x] tt))
      tt (countdown len) None))).

(** ** The operator library: terminal operators *)

(** [!predicate.func || predicate.func(i)]. *)
Definition matches_or_absent (f : option fn) (i : value) : bool :=
  match f with
  | Some g => truthy (g [i])
  | None => true
  end.

Fixpoint getFirst_loop (predicate : arg) (xs : list value)
    (e : option error) : result (bool * value) :=
  match xs with
  | [] => match e with
          | Some err => Throw err
          | None => Ok (false, VNull)
          end
  | i :: xs' =>
      f <- get_func predicate ;;
      if matches_or_absent f i then Ok (true, i)
      else getFirst_loop predicate xs' e
  end.

Definition getFirst (items : value) (predicate : arg)
    : result (bool * value) :=
  getFirst_loop predicate (fst (iterate items)) (snd (iterate items)).

Definition first (items : value) (predicate : arg) : result value :=
  len <- length_of items ;;
  if negb (truthy len) then Throw EmptySequence
  else
    r <- getFirst items predicate ;;
    if negb (fst r) then Throw NoMatch else Ok (snd r).

Definition firstOrDefault (items : value) (predicate : arg) : result value :=
  r <- getFirst items predicate ;; Ok (snd r).

(** [for (let i = items.length - 1; i >= 0; i--)] runs over the items of an
    array from the last one down, and not at all when [items.length] is not
    a number. *)
Definition getLast (items : value) (predicate : arg)
    : result (bool * value) :=
  _ <- length_of items ;;
  match items with
  | VArr xs | VGroup _ xs => getFirst_loop predicate (rev xs) None
  | _ => Ok (false, VNull)
  end.

Definition last (items : value) (predicate : arg) : result value :=
  len <- length_of items ;;
  if negb (truthy len) then Throw EmptySequence
  else
    r <- getLast items predicate ;;
    if negb (fst r) then Throw NoMatch else Ok (snd r).

Definition lastOrDefault (items : value) (predicate : arg) : result value :=
  r <- getLast items predicate ;; Ok (snd r).

(** The loop of [getSingle]; [found] is the local array [matches]. *)
Fixpoint getSingle_loop (predicate : arg) (found : list value)
    (xs : list value) (e : option error) : result (bool * value) :=
  match xs with
  | [] => match e with
          | Some err => Throw err
          | None => match found with
                    | m :: _ => Ok (true, m)
                    | [] => Ok (false, VNull)
                    end
          end
  | item :: xs' =>
      f <- get_func predicate ;;
      if negb (matches_or_absent f item)
      then getSingle_loop predicate found xs' e
      else if (0 <? Z.of_nat (length found))
      then Throw MultipleMatches
      else getSingle_loop predicate (found ++ [item]) xs' e
  end.

Definition getSingle (items : value) (predicate : arg)
    : result (bool * value) :=
  getSingle_loop predicate [] (fst (iterate items)) (snd (iterate items)).

Definition single (items : value) (predicate : arg) : result value :=
  len <- length_of items ;;
  if negb (truthy len) then Throw EmptySequence
  else
    r <- getSingle items predicate ;;
    if negb (fst r) then Throw NoMatch else Ok (snd r).

Definition singleOrDefault (items : value) (predicate : arg) : result value :=
  r <- getSingle items predicate ;; Ok (snd r).

Definition elementAt (items : value) (index : arg) : result value :=
  i <- get_literal index ;;
  len <- length_of items ;;
  if js_gt i len then Throw IndexOutOfRange
  else get_property items i.

Definition elementAtOrDefault (items : value) (index : arg) : result value :=
  i <- get_literal index ;;
  get_property items i.

(** [items.indexOf(item) >= 0] searches for the part argument itself, an
    object no item of the fragment is; a missing argument is [undefined]. *)
Definition contains (items : value) (item : arg) : result value :=
  xs <- as_array items ;;
  Ok (VBool match item with
            | Some _ => false
            | None => existsb (strict_eq VUndefined) xs
            end).

Fixpoint forallM (p : value -> result bool) (xs : list value) : result bool :=
  match xs with
  | [] => Ok true
  | x :: xs' => b <- p x ;; if b then forallM p xs' else Ok false
  end.

Definition sequenceEqual (items : value) (other : arg) : result value :=
  o <- get_literal other ;;
  if negb (truthy o) then Ok (VBool false)
  else
    li <- length_of items ;;
    lo <- length_of o ;;
    if negb (strict_eq li lo) then Ok (VBool false)
    else
      b <- forallM (fun i => x <- get_property items i ;;
                             y <- get_property o i ;;
                             Ok (loose_eq x y))
                   (range (to_number li)) ;;
      Ok (VBool b).

(** How a helper that has pulled every item ends: with [v], or as the
    generator throws. *)
Definition pulled_all {A : Type} (e : option error) (v : A) : result A :=
  match e with
  | None => Ok v
  | Some err => Throw err
  end.

(** [o.some(g)].  On a generator the helper stops at the first item [g]
    accepts. *)
Definition some_of (o : value) (g : fn) : result bool :=
  match o with
  | VArr xs | VGroup _ xs =>
      Ok (existsb (fun a => truthy (g a)) (with_index xs))
  | VGen ys e =>
      if existsb (fun a => truthy (g a)) (with_counter ys) then Ok true
      else pulled_all e false
  | _ => Throw TypeError
  end.

(** [o.every(g)].  On a generator the helper stops at the first item [g]
    rejects. *)
Definition every_of (o : value) (g : fn) : result bool :=
  match o with
  | VArr xs | VGroup _ xs =>
      Ok (forallb (fun a => truthy (g a)) (with_index xs))
  | VGen ys e =>
      if forallb (fun a => truthy (g a)) (with_counter ys)
      then pulled_all e true
      else Ok false
  | _ => Throw TypeError
  end.

(** [o.filter(g).length]: the helper object [filter] returns on a generator
    has no [length]. *)
Definition filtered_length (o : value) (g : fn) : result value :=
  match o with
  | VArr xs | VGroup _ xs =>
      Ok (VNum (Z.of_nat
            (length (filter (fun a => truthy (g a)) (with_index xs)))))
  | VGen _ _ => Ok VUndefined
  | _ => Throw TypeError
  end.

Definition any (items : value) (predicate : arg) : result value :=
  f <- get_func predicate ;;
  match f with
  | Some g => b <- some_of items g ;; Ok (VBool b)
  | None =>
      len <- length_of items ;;
      Ok (VBool (js_gt len (VNum 0)))
  end.

(** [every] on an array and on a generator throws when its argument is not
    a function. *)
Definition all (items : value) (predicate : arg) : result value :=
  f <- get_func predicate ;;
  match f with
  | Some g => b <- every_of items g ;; Ok (VBool b)
  | None => Throw TypeError
  end.

Definition count (items : value) (predicate : arg) : result value :=
  f <- get_func predicate ;;
  match f with
  | Some g => filtered_length items g
  | None => length_of items
  end.

(** [Math.min(x)] and [Math.max(x)] of a single argument are [Number(x)]. *)
Definition math_number (x : value) : value :=
  match to_number x with
  | Some n => VNum n
  | None => VNaN
  end.

(** [Number(o.map(g))]: the helper object [map] returns on a generator
    converts to [NaN]. *)
Definition mapped_number (o : value) (g : fn) : result value :=
  match o with
  | VArr xs | VGroup _ xs => Ok (math_number (VArr (map g (with_index xs))))
  | VGen _ _ => Ok VNaN
  | _ => Throw TypeError
  end.

Definition min (items : value) (selector : arg) : result value :=
  f <- get_func selector ;;
  match f with
  | Some g => mapped_number items g
  | None => Ok (math_number items)
  end.

Definition max (items : value) (selector : arg) : result value :=
  f <- get_func selector ;;
  match f with
  | Some g => mapped_number items g
  | None => Ok (math_number items)
  end.

(** [xs.reduce(f, seed)] for a callback that may throw. *)
Fixpoint reduce (f : value -> value -> result value) (xs : list value)
    (p : value) : result value :=
  match xs with
  | [] => Ok p
  | c :: xs' => p' <- f p c ;; reduce f xs' p'
  end.

(** [selector.func ? selector.func(c) : c]. *)
Definition selected (selector : arg) (c : value) : result value :=
  f <- get_func selector ;;
  Ok match f with
     | Some g => g [c]
     | None => c
     end.

(** [o.reduce(f, seed)].  On a generator the helper pulls every item. *)
Definition reduce_of (o : value) (f : value -> value -> result value)
    (seed : value) : result value :=
  match o with
  | VArr xs | VGroup _ xs => reduce f xs seed
  | VGen ys e => r <- reduce f ys seed ;; pulled_all e r
  | _ => Throw TypeError
  end.

Definition aggregate (items : value) (func_ seed selector : arg)
    : result value :=
  s <- get_literal seed ;;
  reduce_of items
    (fun p c => _ <- get_func func_ ;;
                v <- selected selector c ;;
                call_func func_ [p; v])
    s.

Definition check (items : value) : result unit :=
  if negb (truthy items) then Throw InvalidSource else Ok tt.

(** ** Ordering fusion *)

Definition thenFuncs : list QueryFunc := [QF_thenBy; QF_thenByDescending].
Definition descFuncs : list QueryFunc :=
  [QF_orderByDescending; QF_thenByDescending].

(** [l.indexOf(t)]: the first position of [t], [-1] when there is none. *)
Fixpoint indexOf_from (l : list QueryFunc) (t : QueryFunc) (i : Z) : Z :=
  match l with
  | [] => -1
  | x :: l' => if QueryFunc_eq_dec x t then i else indexOf_from l' t (i + 1)
  end.

Definition indexOf (l : list QueryFunc) (t : QueryFunc) : Z :=
  indexOf_from l t 0.

(** [descFuncs.indexOf(s.type) ? -1 : 1]: a number is truthy when it is not
    zero. *)
Definition desc_of (s : QueryPart) : Z :=
  if truthy (VNum (indexOf descFuncs (type s))) then -1 else 1.

(** The comparator [orderBy] hands to [sort]; falling out of the loop it
    returns [undefined], which [sort] reads as [0]. *)
Fixpoint comparator (keySelectors : list QueryPart) (i1 i2 : value)
    : result Z :=
  match keySelectors with
  | [] => Ok 0
  | s :: rest =>
      let desc := desc_of s in
      let sel := nth_error (args s) 0 in
      v1 <- call_func sel [i1] ;;
      v2 <- call_func sel [i2] ;;
      if js_gt v1 v2 then Ok desc
      else if js_lt v1 v2 then Ok (-1 * desc)
      else comparator rest i1 i2
  end.

(** [xs.sort(cmp)].  The host's sort is stable, it moves [undefined] items
    behind all others without comparing them, and it places [x] before [y]
    when [cmp x y <= 0] leaves them in their order; for a comparator that is
    a consistent ordering this fixes the result, which the insertion sort
    below computes. *)
Fixpoint insert (cmp : value -> value -> result Z) (x : value)
    (sorted : list value) : result (list value) :=
  match sorted with
  | [] => Ok [x]
  | y :: ys =>
      c <- cmp x y ;;
      if c <=? 0 then Ok (x :: y :: ys)
      else zs <- insert cmp x ys ;; Ok (y :: zs)
  end.

Fixpoint insertion_sort (cmp : value -> value -> result Z)
    (xs : list value) : result (list value) :=
  match xs with
  | [] => Ok []
  | x :: xs' => s <- insertion_sort cmp xs' ;; insert cmp x s
  end.

Definition is_undefined (v : value) : bool :=
  match v with
  | VUndefined => true
  | _ => false
  end.

Definition sort (cmp : value -> value -> result Z) (xs : list value)
    : result (list value) :=
  s <- insertion_sort cmp (filter (fun x => negb (is_undefined x)) xs) ;;
  Ok (s ++ filter is_undefined xs).

(** [items.slice()]: a fresh array with the items of [items]. *)
Definition slice (items : value) : result (list value) := as_array items.

Definition orderBy (items : value) (keySelectors : list QueryPart)
    : result value :=
  copy <- slice items ;;
  sorted <- sort (comparator keySelectors) copy ;;
  Ok (VArr sorted).

(** ** The executor

    [sum] and [average] use the host's [+] and [/], whose results leave the
    fragment (a string when an operand is an object, a fraction); the two
    operations are parameters of the executor. *)
Section Host.

Variable js_add : value -> value -> value.
Variable js_div : value -> value -> value.

Definition sum (items : value) (selector : arg) : result value :=
  reduce_of items
    (fun p c => v <- selected selector c ;; Ok (js_add p v))
    (VNum 0).

Definition average (items : value) (selector : arg) : result value :=
  len <- length_of items ;;
  if truthy len
  then s <- sum items selector ;; Ok (js_div s len)
  else Ok (VNum 0).

(** An entry of [funcs], as [handlePart] calls it: on the running value
    and the part's arguments, spread over the declared parameters. *)
Definition operator : Type := value -> list PartArgument -> result value.

Definition op1 (f : value -> result value) : operator :=
  fun items _ => f items.
Definition op2 (f : value -> arg -> result value) : operator :=
  fun items a => f items (nth_error a 0).
Definition op3 (f : value -> arg -> arg -> result value) : operator :=
  fun items a => f items (nth_error a 0) (nth_error a 1).
Definition op4 (f : value -> arg -> arg -> arg -> result value)
    : operator :=
  fun items a => f items (nth_error a 0) (nth_error a 1) (nth_error a 2).
Definition op5 (f : value -> arg -> arg -> arg -> arg -> result value)
    : operator :=
  fun items a =>
    f items (nth_error a 0) (nth_error a 1) (nth_error a 2)
      (nth_error a 3).

(** The table has no entry for the four ordering kinds. *)
Definition funcs (t : QueryFunc) : option operator :=
  match t with
  | QF_where => Some (op2 where_)
  | QF_ofType => Some (op2 ofType)
  | QF_cast => Some (op2 cast)
  | QF_select => Some (op2 select)
  | QF_selectMany => Some (op2 selectMany)
  | QF_joinWith => Some (op5 joinWith)
  | QF_groupJoin => Some (op5 groupJoin)
  | QF_take => Some (op2 take)
  | QF_takeWhile => Some (op2 takeWhile)
  | QF_skip => Some (op2 skip)
  | QF_skipWhile => Some (op2 skipWhile)
  | QF_groupBy => Some (op3 groupBy)
  | QF_distinct => Some (op2 distinct)
  | QF_concatWith => Some (op2 concatWith)
  | QF_zip => Some (op3 zip)
  | QF_union => Some (op2 union)
  | QF_intersect => Some (op2 intersect)
  | QF_except => Some (op2 except)
  | QF_defaultIfEmpty => Some (op1 defaultIfEmpty)
  | QF_reverse => Some (op1 reverse)
  | QF_first => Some (op2 first)
  | QF_firstOrDefault => Some (op2 firstOrDefault)
  | QF_last => Some (op2 last)
  | QF_lastOrDefault => Some (op2 lastOrDefault)
  | QF_single => Some (op2 single)
  | QF_singleOrDefault => Some (op2 singleOrDefault)
  | QF_elementAt => Some (op2 elementAt)
  | QF_elementAtOrDefault => Some (op2 elementAtOrDefault)
  | QF_contains => Some (op2 contains)
  | QF_sequenceEqual => Some (op2 sequenceEqual)
  | QF_any => Some (op2 any)
  | QF_all => Some (op2 all)
  | QF_count => Some (op2 count)
  | QF_min => Some (op2 min)
  | QF_max => Some (op2 max)
  | QF_sum => Some (op2 sum)
  | QF_average => Some (op2 average)
  | QF_aggregate => Some (op4 aggregate)
  | QF_orderBy | QF_orderByDescending | QF_thenBy | QF_thenByDescending =>
      None
  end.

Definition handlePart (items : value) (part : QueryPart) : result value :=
  match funcs (type part) with
  | None => Throw (UnknownOperator (type part))
  | Some f => f items (args part)
  end.

(** The loop of [execute] over the parts that remain, with its two local
    variables [value] (here [val]) and [orderParts]. *)
Fixpoint execute_loop (items : value) (parts : list QueryPart)
    (val : value) (orderParts : list QueryPart) : result value :=
  match parts with
  | [] => Ok val
  | p :: rest =>
      if truthy (VNum (Z.lnot (indexOf thenFuncs (type p))))
      then execute_loop items rest val (orderParts ++ [p])
      else
        flushed <- (if truthy (VNum (Z.of_nat (length orderParts)))
                    then v <- orderBy items orderParts ;; Ok (v, [])
                    else Ok (val, orderParts)) ;;
        v <- handlePart (fst flushed) p ;;
        execute_loop items rest v (snd flushed)
  end.

(** [parts] is [None] for [null]. *)
Definition execute (items : value) (parts : option (list QueryPart))
    : result value :=
  match parts with
  | None | Some [] => Ok items
  | Some ps => _ <- check items ;; execute_loop items ps items []
  end.

End Host.

(** ** Pulling from a producer

    The embedding of a generator by what it yields says nothing of when its
    producer is asked for an item.  For [take] the protocol is spelled out:
    a producer is what its successive [next()] calls give ([up k] for the
    call number [k], [None] once it is done), and the generator
    [take] returns is a state machine over the loop counter [i], the number
    of [next()] calls made upstream, and whether the body has finished. *)
Definition producer : Type := nat -> option value.

Record take_state : Type :=
  { counter : Z; pulled : nat; finished : bool }.

Definition take_start : take_state :=
  {| counter := 0; pulled := 0; finished := false |}.

(** One [next()] on the generator of [take(up, count)]: the loop asks the
    producer for an item, then tests [++i <= count.literal]. *)
Definition take_next (up : producer) (count : arg) (st : take_state)
    : result (option value) * take_state :=
  if finished st then (Ok None, st)
  else
    let after := fun (i : Z) =>
      {| counter := i; pulled := pulled st + 1; finished := true |} in
    match up (pulled st) with
    | None => (Ok None, after (counter st))
    | Some item =>
        match get_literal count with
        | Throw err => (Throw err, after (counter st + 1))
        | Ok n =>
            if js_le (VNum (counter st + 1)) n
            then (Ok (Some item),
                  {| counter := counter st + 1;
                     pulled := pulled st + 1;
                     finished := false |})
            else (Ok None, after (counter st + 1))
        end
    end.

(** The consumer that drains the generator: [next()] until it is done, at
    most [fuel] calls.  [None]: not done within [fuel] calls. *)
Fixpoint drain (fuel : nat) (up : producer) (count : arg) (st : take_state)
    : option (list value * option error * take_state) :=
  match fuel with
  | O => None
  | S fuel' =>
      match take_next up count st with
      | (Ok (Some x), st') =>
          match drain fuel' up count st' with
          | Some (ys, e, st'') => Some (x :: ys, e, st'')
          | None => None
          end
      | (Ok None, st') => Some ([], None, st')
      | (Throw err, st') => Some ([], Some err, st')
      end
  end.

(** ** The executor over a store of arrays

    Arrays are objects: [sort] writes into the array it is called on, and an
    operator can hand back the very array it received.  Here the arrays the
    executor handles live in a store, a location being a position in it, and
    a running value is either a reference to an array of the store or a
    value that is no array of the store. *)
Definition loc : Type := nat.
Definition store : Type := list (list value).

Inductive operand : Type :=
| Ref (l : loc)
| Val (v : value).

(** The array at [l]. *)
Definition read (st : store) (l : loc) : list value := nth l st [].

(** What the operators see of a running value. *)
Definition deref (st : store) (o : operand) : value :=
  match o with
  | Ref l => VArr (read st l)
  | Val v => v
  end.

(** A fresh array holding [xs]. *)
Definition alloc (st : store) (xs : list value) : loc * store :=
  (length st, st ++ [xs]).

(** Overwriting the array at [l]. *)
Fixpoint write (st : store) (l : loc) (xs : list value) : store :=
  match st, l with
  | [], _ => []
  | _ :: st', O => xs :: st'
  | a :: st', S l' => a :: write st' l' xs
  end.

(** [items.slice()] allocates the copy. *)
Definition slice_st (st : store) (items : operand)
    : store * result loc :=
  match slice (deref st items) with
  | Ok xs => (snd (alloc st xs), Ok (fst (alloc st xs)))
  | Throw err => (st, Throw err)
  end.

(** [a.sort(cmp)] sorts the array at [l] in place. *)
Definition sort_st (cmp : value -> value -> result Z) (st : store) (l : loc)
    : store * result loc :=
  match sort cmp (read st l) with
  | Ok sorted => (write st l sorted, Ok l)
  | Throw err => (st, Throw err)
  end.

Definition orderBy_st (st : store) (items : operand)
    (keySelectors : list QueryPart) : store * result operand :=
  match slice_st st items with
  | (st1, Ok copy) =>
      match sort_st (comparator keySelectors) st1 copy with
      | (st2, Ok sorted) => (st2, Ok (Ref sorted))
      | (st2, Throw err) => (st2, Throw err)
      end
  | (st1, Throw err) => (st1, Throw err)
  end.

(** [items || []] hands back [items] itself, or allocates the empty array. *)
Definition defaultIfEmpty_st (st : store) (items : operand)
    : store * result operand :=
  if truthy (deref st items) then (st, Ok items)
  else (snd (alloc st []), Ok (Ref (fst (alloc st [])))).

Section HostStore.

Variable js_add : value -> value -> value.
Variable js_div : value -> value -> value.

(** [defaultIfEmpty] apart, no entry of [funcs] returns an array, and none
    calls a writing method ([sort], [push], [add]) on [items] or assigns to
    a property of it: what they push into ([groups] and its groups,
    [matches], the sets of the set operators) is created by the same call.
    On the store they are their embedding above, applied to what the
    running value holds, and leave the store as it is. *)
Definition handlePart_st (st : store) (items : operand) (part : QueryPart)
    : store * result operand :=
  match funcs js_add js_div (type part) with
  | None => (st, Throw (UnknownOperator (type part)))
  | Some f =>
      match type part with
      | QF_defaultIfEmpty => defaultIfEmpty_st st items
      | _ => (st, v <- f (deref st items) (args part) ;; Ok (Val v))
      end
  end.

Fixpoint execute_loop_st (st : store) (items : operand)
    (parts : list QueryPart) (val : operand) (orderParts : list QueryPart)
    : store * result operand :=
  match parts with
  | [] => (st, Ok val)
  | p :: rest =>
      if truthy (VNum (Z.lnot (indexOf thenFuncs (type p))))
      then execute_loop_st st items rest val (orderParts ++ [p])
      else
        let flushed :=
          if truthy (VNum (Z.of_nat (length orderParts)))
          then match orderBy_st st items orderParts with
               | (st1, Ok v) => (st1, Ok (v, []))
               | (st1, Throw err) => (st1, Throw err)
               end
          else (st, Ok (val, orderParts)) in
        match flushed with
        | (st1, Throw err) => (st1, Throw err)
        | (st1, Ok (v, pending)) =>
            match handlePart_st st1 v p with
            | (st2, Throw err) => (st2, Throw err)
            | (st2, Ok v') => execute_loop_st st2 items rest v' pending
            end
        end
  end.

Definition execute_st (st : store) (items : operand)
    (parts : option (list QueryPart)) : store * result operand :=
  match parts with
  | None | Some [] => (st, Ok items)
  | Some ps =>
      match check (deref st items) with
      | Throw err => (st, Throw err)
      | Ok _ => execute_loop_st st items ps items []
      end
  end.

End HostStore.

(** ** Vocabulary of the statements *)

(** The array of the numbers [ns]. *)
Definition numbers (ns : list Z) : value := VArr (map VNum ns).

(** A function argument of one parameter, and a literal argument. *)
Definition unary (f : value -> value) : PartArgument :=
  {| func := Some (fun xs => f (nth 0 xs VUndefined)); literal := VUndefined |}.

Definition lit (v : value) : PartArgument :=
  {| func := None; literal := v |}.

(** An argument that carries neither a function nor a literal. *)
Definition absent : PartArgument := lit VUndefined.

Definition identity : PartArgument := unary (fun x => x).

(** [x => x > k] and [x => x % 2]. *)
Definition greater_than (k : Z) : PartArgument :=
  unary (fun x => VBool (js_gt x (VNum k))).

Definition parity : PartArgument :=
  unary (fun x => match x with
                  | VNum n => VNum (Z.rem n 2)
                  | _ => VNaN
                  end).

Definition part (t : QueryFunc) (a : list PartArgument) : QueryPart :=
  {| type := t; args := a |}.

(** [(a, b) => a == b], a comparer the caller supplies. *)
Definition equals : PartArgument :=
  {| func := Some (fun xs =>
                     VBool (loose_eq (nth 0 xs VUndefined)
                                     (nth 1 xs VUndefined)));
     literal := VUndefined |}.

(** [(a, b) => [a, b]]. *)
Definition pair_up : PartArgument :=
  {| func := Some (fun xs => VArr xs); literal := VUndefined |}.

(** The item [S[i]] reads: [undefined] outside of the array. *)
Definition item_at (S : list value) (i : Z) : value :=
  if 0 <=? i then nth (Z.to_nat i) S VUndefined else VUndefined.

(** The items of [xs] the predicate of [p] accepts, all of them when [p]
    carries no function. *)
Definition matching (p : PartArgument) (xs : list value) : list value :=
  filter (matches_or_absent (func p)) xs.

(** A producer that never ends, giving [f k] to the call number [k]. *)
Definition unbounded (f : nat -> value) : producer := fun k => Some (f k).

(** The producer that reads the array [xs]. *)
Definition array_producer (xs : list value) : producer := nth_error xs.

(** The natural numbers [0], [1], [2], ... *)
Definition naturals : producer := unbounded (fun k => VNum (Z.of_nat k)).

(** [st'] holds the arrays of [st], each as it was, and fresh ones. *)
Definition extends (st st' : store) : Prop :=
  exists fresh, st' = st ++ fresh.

(** A reference points into the store. *)
Definition operand_ok (st : store) (o : operand) : Prop :=
  match o with
  | Ref l => (l < length st)%nat
  | Val _ => True
  end.

(** The outcome of a store computation as [execute] would return it. *)
Definition outcome (r : store * result operand) : result value :=
  match snd r with
  | Ok o => Ok (deref (fst r) o)
  | Throw err => Throw err
  end.

Definition outcome_ok (r : store * result operand) : Prop :=
  match snd r with
  | Ok o => operand_ok (fst r) o
  | Throw _ => True
  end.

(** ** Vocabulary of the further properties *)

(** The kinds whose entry of [funcs] is a [function*]. *)
Definition lazy_kind (t : QueryFunc) : bool :=
  match t with
  | QF_where | QF_ofType | QF_cast | QF_select | QF_selectMany | QF_joinWith
  | QF_groupJoin | QF_take | QF_takeWhile | QF_skip | QF_skipWhile
  | QF_groupBy | QF_distinct | QF_concatWith | QF_zip | QF_union
  | QF_intersect | QF_except | QF_reverse => true
  | _ => false
  end.

(** The kinds the loop of [execute] buffers. *)
Definition then_kind (t : QueryFunc) : bool :=
  match t with
  | QF_thenBy | QF_thenByDescending => true
  | _ => false
  end.

(** How a loop that runs to the end of its items ends. *)
Definition ending {S : Type} (e : option error) (s : S) : result S :=
  match e with
  | None => Ok s
  | Some err => Throw err
  end.

(** [x => !!f(x)] as a test on items. *)
Definition accepts (f : value -> value) (x : value) : bool := truthy (f x).

(** The longest prefix of [xs] whose items all pass [keep]. *)
Fixpoint while_prefix (keep : value -> bool) (xs : list value) : list value :=
  match xs with
  | [] => []
  | x :: xs' => if keep x then x :: while_prefix keep xs' else []
  end.

(** The induction principle that reaches the items of arrays and
    generators. *)
Section value_ind_deep.
Variable P : value -> Prop.
Hypothesis Hundef : P VUndefined.
Hypothesis Hnull : P VNull.
Hypothesis Hbool : forall b, P (VBool b).
Hypothesis Hnum : forall n, P (VNum n).
Hypothesis Hnan : P VNaN.
Hypothesis Harr : forall xs, Forall P xs -> P (VArr xs).
Hypothesis Hgroup : forall k xs, P k -> Forall P xs -> P (VGroup k xs).
Hypothesis Hgen : forall ys e, Forall P ys -> P (VGen ys e).

Fixpoint value_ind_deep (v : value) : P v :=
  let fix all (xs : list value) : Forall P xs :=
    match xs with
    | [] => Forall_nil P
    | x :: xs' => Forall_cons x (value_ind_deep x) (all xs')
    end in
  match v with
  | VUndefined => Hundef
  | VNull => Hnull
  | VBool b => Hbool b
  | VNum n => Hnum n
  | VNaN => Hnan
  | VArr xs => Harr xs (all xs)
  | VGroup k xs => Hgroup k xs (value_ind_deep k) (all xs)
  | VGen ys e => Hgen ys e (all ys)
  end.
End value_ind_deep.

(** [same_object] on the items of two arrays, one by one. *)
Fixpoint same_items (xs ys : list value) : bool :=
  match xs, ys with
  | [], [] => true
  | x :: xs', y :: ys' => same_object x y && same_items xs' ys'
  | _, _ => false
  end.

(** A key selector that gives the number [k x]. *)
Definition key_arg (k : value -> Z) : PartArgument :=
  unary (fun x => VNum (k x)).

(** The order in which a selector of kind [t] leaves two keys: the first
    no greater than the second for [orderByDescending], no smaller for the
    other three kinds. *)
Definition key_order (t : QueryFunc) (k : value -> Z) (a b : value) : Prop :=
  if QueryFunc_eq_dec t QF_orderByDescending then k a <= k b
  else k b <= k a.

(** The items of [xs] whose key is [z], in their order. *)
Definition with_key (k : value -> Z) (z : Z) (xs : list value) : list value :=
  filter (fun x => k x =? z) xs.

(** The items of [xs] other than [undefined], and the others. *)
Definition defined_items (xs : list value) : list value :=
  filter (fun x => negb (is_undefined x)) xs.

Definition undefined_items (xs : list value) : list value :=
  filter is_undefined xs.

(** A function argument of two parameters. *)
Definition binary (f : value -> value -> value) : PartArgument :=
  {| func := Some (fun xs => f (nth 0 xs VUndefined) (nth 1 xs VUndefined));
     literal := VUndefined |}.

(** The items of [os] whose key under [k2] is deep-equal to the key of [i]
    under [k1]. *)
Definition partners (k1 k2 : value -> value) (os : list value) (i : value)
    : list value :=
  filter (fun o => deepEqual (k2 o) (k1 i)) os.

(** Whether every part of [parts] is of a kind the loop buffers. *)
Definition all_then (parts : list QueryPart) : bool :=
  forallb (fun p => then_kind (type p)) parts.

(** Whether two lists of numbers have the same length and the same number
    at every position. *)
Fixpoint same_numbers (a b : list Z) : bool :=
  match a, b with
  | [], [] => true
  | x :: a', y :: b' => (x =? y) && same_numbers a' b'
  | _, _ => false
  end.

(** ** Range and repeat

    [Array.range] and [Array.repeat] of the array extensions, two
    generator functions.  Their arguments are declared as numbers, the
    count of [range] (and, in the implementation, its start) optional:
    [None] is an argument left out.  The error both throw is not one of the
    query provider's.

    The numbers of the host are doubles.  A double holds every integer up
    to [2 ^ 53] in magnitude, and [+] and [++] on two of them are exact
    when the result is one of them; beyond, a sum is rounded and a counter
    stops growing.  The two generators are embedded on these integers:
    [None] stands for a call that leaves them. *)
Inductive range_error : Type :=
| ArgumentOutOfRange. (* 'Specified argument was out of the range of valid values' *)

Definition max_exact : Z := 2 ^ 53.

Definition exact (n : Z) : bool := (- max_exact <=? n) && (n <=? max_exact).

(** An argument that is left out or is one of these integers. *)
Definition exact_argument (a : option Z) : bool :=
  match a with
  | Some n => exact n
  | None => true
  end.

(** [start + i] for the counter [i]: [NaN] when [start] is [undefined]. *)
Definition plus_index (start : option Z) (i : nat) : option value :=
  match start with
  | Some s =>
      if exact (s + Z.of_nat i) then Some (VNum (s + Z.of_nat i)) else None
  | None => Some VNaN
  end.

Fixpoint all_some {A : Type} (l : list (option A)) : option (list A) :=
  match l with
  | [] => Some []
  | None :: _ => None
  | Some a :: l' => option_map (cons a) (all_some l')
  end.

(** What draining [Array.range(start, count)] gives.  [count < 0] and
    [i < count] are false for a count that is [undefined]. *)
Definition Array_range (start count : option Z)
    : option (list value * option range_error) :=
  if exact_argument start && exact_argument count then
    let count' := match count with
                  | None => start
                  | Some _ => count
                  end in
    let start' := match count with
                  | None => Some 0
                  | Some _ => start
                  end in
    match count' with
    | Some c =>
        if c <? 0 then Some ([], Some ArgumentOutOfRange)
        else option_map (fun ys => (ys, None))
               (all_some (map (plus_index start') (seq 0 (Z.to_nat c))))
    | None => Some ([], None)
    end
  else None.

(** What draining [Array.repeat(item, count)] gives. *)
Definition Array_repeat (item : value) (count : Z)
    : option (list value * option range_error) :=
  if exact count then
    if count <? 0 then Some ([], Some ArgumentOutOfRange)
    else Some (map (fun _ => item) (seq 0 (Z.to_nat count)), None)
  else None.

(** An instance of the host's [+] for the examples: the sum of two of
    these integers when it is one of them. *)
Definition plus_exact (a b : value) : value :=
  match a, b with
  | VNum x, VNum y =>
      if exact x && exact y && exact (x + y) then VNum (x + y) else VNaN
  | _, _ => VNaN
  end.

(** A group whose key is a number: the key and the items. *)
Definition keyed_group : Type := (Z * list value)%type.

Definition as_group (g : keyed_group) : group := (VNum (fst g), snd g).

Definition has_key (z : Z) (gs : list keyed_group) : bool :=
  existsb (fun g => fst g =? z) gs.

(** [a.push(i)] on the group of key [z]. *)
Definition push_keyed (z : Z) (i : value) (g : keyed_group) : keyed_group :=
  if fst g =? z then (fst g, snd g ++ [i]) else g.

(** One turn of the first loop of [groupBy] on groups of distinct numeric
    keys. *)
Definition keyed_turn (gs : list keyed_group) (z : Z) (i : value)
    : list keyed_group :=
  if has_key z gs then map (push_keyed z i) gs else gs ++ [(z, [])].

(** What the groups built from the items [pre] satisfy: their keys are
    distinct, every key of an item has its group, and the group of a key
    holds the items of that key but the first. *)
Definition groups_of (k : value -> Z) (pre : list value)
    (gs : list keyed_group) : Prop :=
  NoDup (map fst gs) /\
  (forall x, In x pre -> In (k x) (map fst gs)) /\
  (forall g, In g gs ->
             In (fst g) (map k pre) /\
             snd g = tl (with_key k (fst g) pre)).

(** An ordering part with a numeric key: its kind and its key. *)
Definition key_selector : Type := (QueryFunc * (value -> Z))%type.

Definition ordering_part (s : key_selector) : QueryPart :=
  part (fst s) [key_arg (snd s)].

(** The order a fused run of selectors leaves two items in: by the first
    key as [key_order] has it, strictly, or with that key equal by the
    selectors that follow. *)
Fixpoint keys_order (sels : list key_selector) (a b : value) : Prop :=
  match sels with
  | [] => True
  | s :: rest =>
      (snd s a <> snd s b /\ key_order (fst s) (snd s) a b) \/
      (snd s a = snd s b /\ keys_order rest a b)
  end.

(** Whether [x] has the keys of [y] under every selector, and the items of
    [xs] that have. *)
Definition same_keys (sels : list key_selector) (y x : value) : bool :=
  forallb (fun s => snd s x =? snd s y) sels.

Definition with_keys (sels : list key_selector) (y : value)
    (xs : list value) : list value :=
  filter (same_keys sels y) xs.

(** What the comparator returns over the selectors [ss]: the direction
    of the first selector whose keys differ, [0] when none does. *)
Fixpoint lex (ss : list key_selector) (a b : value) : Z :=
  match ss with
  | [] => 0
  | s :: rest =>
      match snd s a ?= snd s b with
      | Gt => desc_of (ordering_part s)
      | Lt => -1 * desc_of (ordering_part s)
      | Eq => lex rest a b
      end
  end.

(** Whether no item of [xs] is an object. *)
Definition primitives (xs : list value) : bool :=
  forallb (fun x => negb (is_object x)) xs.

(** The comparator lets [a] stand before [b]. *)
Definition lex_precedes (sels : list key_selector) (a b : value) : Prop :=
  lex sels a b <= 0.

(** Whether no part of [parts] is of a kind the loop buffers. *)
Definition no_then (parts : list QueryPart) : bool :=
  forallb (fun p => negb (then_kind (type p))) parts.

(** * Properties *)

(** ** The executor *)

Section Executor.

Variable js_add : value -> value -> value.
Variable js_div : value -> value -> value.

Local Abbreviation execute := (execute js_add js_div).

Lemma then_part_is_buffered (t : QueryFunc) :
  truthy (VNum (Z.lnot (indexOf thenFuncs t))) = true <->
  t = QF_thenBy \/ t = QF_thenByDescending.
Proof.
  destruct t; cbn; split; intros H; try discriminate; auto;
    destruct H as [H | H]; discriminate H.
Qed.

Lemma ordering_kind_has_no_entry (t : QueryFunc) :
  funcs js_add js_div t = None <->
  t = QF_orderBy \/ t = QF_orderByDescending \/
  t = QF_thenBy \/ t = QF_thenByDescending.
Proof.
  destruct t; cbn; split; intros H; try discriminate; auto;
    repeat (destruct H as [H | H]; try discriminate H); discriminate H.
Qed.

(** C8.  With no parts list ([null]) or an empty one, [execute] returns the
    source as it is, whatever the source, [null] included; with a parts list
    that is not empty, a [null] source fails with [InvalidSource] whatever
    the parts are, the first one an unknown operator or not. *)
Theorem C8_execute_identity_and_null_source :
  (forall items, execute items None = Ok items) /\
  (forall items, execute items (Some []) = Ok items) /\
  execute VNull None = Ok VNull /\
  execute VNull (Some []) = Ok VNull /\
  (forall p ps, execute VNull (Some (p :: ps)) = Throw InvalidSource).
Proof.
  repeat split; intros; reflexivity.
Qed.

(** C1.  What the executor does with ordering parts: an [orderBy] or
    [orderByDescending] part is not buffered but dispatched, and fails as
    an unknown operator, whatever follows it; a pending buffer of [thenBy]
    parts is dropped at the end of the list, the running value returned as
    it stands. *)
Theorem C1_orderBy_is_dispatched_and_fails :
  (forall S k rest,
     execute (VArr S) (Some (part QF_orderBy [k] :: rest))
     = Throw (UnknownOperator QF_orderBy)) /\
  (forall S k rest,
     execute (VArr S) (Some (part QF_orderByDescending [k] :: rest))
     = Throw (UnknownOperator QF_orderByDescending)) /\
  execute (numbers [3; 1; 2]) (Some [part QF_orderBy [identity]])
  = Throw (UnknownOperator QF_orderBy) /\
  (forall S k,
     execute (VArr S) (Some [part QF_thenBy [k]]) = Ok (VArr S)) /\
  execute (numbers [3; 1; 2])
    (Some [part QF_where [greater_than 1]; part QF_thenBy [identity]])
  = Ok (VGen [VNum 3; VNum 2] None).
Proof.
  repeat split; intros; reflexivity.
Qed.

End Executor.

(** ** Ordering *)

Lemma js_compare_numbers (a b : Z) :
  js_compare (VNum a) (VNum b) = Some (a ?= b).
Proof. reflexivity. Qed.

Lemma comparator_on_numbers (t : QueryFunc) (rest : list QueryPart)
    (a b : Z) :
  comparator (part t [identity] :: rest) (VNum a) (VNum b) =
  match a ?= b with
  | Gt => Ok (desc_of (part t [identity]))
  | Lt => Ok (-1 * desc_of (part t [identity]))
  | Eq => comparator rest (VNum a) (VNum b)
  end.
Proof.
  cbn [comparator part args type nth_error identity unary call_func get_func
       func bind nth].
  unfold js_gt, js_lt. rewrite js_compare_numbers.
  destruct (a ?= b); reflexivity.
Qed.

(** C2.  The direction the comparator of the fused sort gives each kind of
    selector, on items that are their own numeric keys: a negative result
    places the first item before the second.  For [orderBy] and [thenBy]
    the smaller key is placed after the larger one, for [orderByDescending]
    before it; [thenByDescending] places the larger key first.  Equal keys
    fall through to the selectors that follow. *)
Theorem C2_comparator_direction :
  (forall a b,
     comparator [part QF_orderBy [identity]] (VNum a) (VNum b)
     = Ok match a ?= b with Lt => 1 | Eq => 0 | Gt => -1 end) /\
  (forall a b,
     comparator [part QF_thenBy [identity]] (VNum a) (VNum b)
     = Ok match a ?= b with Lt => 1 | Eq => 0 | Gt => -1 end) /\
  (forall a b,
     comparator [part QF_orderByDescending [identity]] (VNum a) (VNum b)
     = Ok match a ?= b with Lt => -1 | Eq => 0 | Gt => 1 end) /\
  (forall a b,
     comparator [part QF_thenByDescending [identity]] (VNum a) (VNum b)
     = Ok match a ?= b with Lt => 1 | Eq => 0 | Gt => -1 end) /\
  (forall t rest a,
     comparator (part t [identity] :: rest) (VNum a) (VNum a)
     = comparator rest (VNum a) (VNum a)) /\
  orderBy (numbers [1; 2; 3]) [part QF_thenBy [identity]]
  = Ok (numbers [3; 2; 1]) /\
  orderBy (numbers [3; 1; 2]) [part QF_orderByDescending [identity]]
  = Ok (numbers [1; 2; 3]).
Proof.
  repeat apply conj; intros; try reflexivity;
    rewrite comparator_on_numbers.
  1-4: destruct (a ?= b); reflexivity.
  rewrite Z.compare_refl. reflexivity.
Qed.

(** ** Grouping *)

(** C3.  [groupBy] on the specification's example: the groups come in the
    order their keys are first met, but the item that opens a group is not
    put into it, so the group of key [1] holds [1; 3] and the group of key
    [0] holds nothing.  In general the turn of the loop that opens a group
    leaves it empty. *)
Theorem C3_groupBy_omits_the_item_that_opens_a_group :
  groupBy (numbers [1; 2; 1; 3]) (Some parity) (Some identity)
  = Ok (VGen [VGroup (VNum 1) [VNum 1; VNum 3]; VGroup (VNum 0) []] None) /\
  (forall k i, groupBy_turn [] k i = [(k, [])]) /\
  (forall x key,
     groupBy (VArr [x]) (Some (unary key)) (Some identity)
     = Ok (VGen [VGroup (key x) []] None)).
Proof.
  repeat split; intros; reflexivity.
Qed.

(** ** Distinct *)

Lemma distinct_outer_reflexive (comparer : PartArgument) (ns : list Z) :
  (forall n, match func comparer with
             | Some g => truthy (g [VNum n; VNum n])
             | None => loose_eq (VNum n) (VNum n)
             end = true) ->
  distinct_outer (Some comparer) (map VNum ns) = ([], Ok tt).
Proof.
  intros Hrefl. induction ns as [| n ns IH]; [reflexivity |].
  cbn [map distinct_outer distinct_inner get_func bind].
  rewrite Hrefl. rewrite IH. reflexivity.
Qed.

(** C4.  [distinct] compares every item with the items from its own
    position on, itself first: with [==], or with a supplied comparer that
    an item satisfies with itself, it yields nothing, whatever numbers the
    sequence holds, those of a sequence without duplicates included. *)
Theorem C4_distinct_yields_nothing :
  distinct (numbers [1; 2; 3]) (Some absent) = Ok (VGen [] None) /\
  (forall ns, distinct (numbers ns) (Some absent) = Ok (VGen [] None)) /\
  (forall ns, distinct (numbers ns) (Some equals) = Ok (VGen [] None)).
Proof.
  split; [reflexivity |].
  split; intros ns; unfold distinct, numbers;
    cbn [length_of try]; rewrite distinct_outer_reflexive;
    try reflexivity; intros n; cbn; apply Z.eqb_refl.
Qed.

(** ** Zip *)

Lemma get_property_index (A : list value) (i : nat) :
  get_property (VArr A) (VNum (Z.of_nat i)) = Ok (nth i A VUndefined).
Proof.
  unfold get_property, index_of_key.
  destruct (Z.leb_spec 0 (Z.of_nat i)); [| lia].
  now rewrite Nat2Z.id.
Qed.

Lemma nth_seq_firstn (A : list value) (d : value) (m : nat) :
  (m <= length A)%nat ->
  map (fun i => nth i A d) (seq 0 m) = firstn m A.
Proof.
  revert m. induction A as [| a A IH]; intros m Hm.
  - destruct m; [reflexivity | cbn in Hm; lia].
  - destruct m as [| m]; [reflexivity |].
    cbn [seq map firstn nth]. f_equal.
    rewrite <- seq_shift, map_map. cbn [nth].
    apply IH. cbn in Hm. lia.
Qed.

Lemma zip_loop (A : list value) (other selector : PartArgument) (f : fn)
    (indices : list nat) :
  func selector = Some f ->
  for_of
    (fun (_ : unit) i =>
       stepping (a <- get_property (VArr A) i ;;
                 call_func (Some selector)
                   [a; part_argument_get other i])
                (fun r => Continue [r] tt))
    tt (map (fun i => VNum (Z.of_nat i)) indices) None
  = (map (fun i => f [nth i A VUndefined; VUndefined]) indices, Ok tt).
Proof.
  intros Hf.
  match goal with |- for_of ?b _ _ _ = _ => set (body := b) end.
  assert (Hbody : forall i, body tt (VNum (Z.of_nat i))
                            = Continue [f [nth i A VUndefined; VUndefined]] tt).
  { intros i. unfold body. rewrite get_property_index.
    cbn [bind call_func get_func]. rewrite Hf. reflexivity. }
  induction indices as [| i indices IH]; [reflexivity |].
  cbn [map for_of]. rewrite Hbody, IH. reflexivity.
Qed.

(** C5.  [zip] yields as many items as the shorter of the two arrays holds,
    the item at position [i] being the selector applied to [A[i]] and to
    [undefined]: the second argument is read from the part argument
    [other], which has no indexed property, not from the other array. *)
Theorem C5_zip_second_argument_is_undefined :
  (forall A B f l,
     zip (VArr A) (Some (lit (VArr B)))
         (Some {| func := Some f; literal := l |})
     = Ok (VGen (map (fun a => f [a; VUndefined])
                     (firstn (Nat.min (length A) (length B)) A))
                None)) /\
  zip (numbers [1; 2; 3]) (Some (lit (numbers [4; 5]))) (Some pair_up)
  = Ok (VGen [VArr [VNum 1; VUndefined]; VArr [VNum 2; VUndefined]] None).
Proof.
  split; [| reflexivity].
  intros A B f l. unfold zip.
  cbn [getArray get_func get_literal lit func literal bind try length_of
       math_min to_number range].
  rewrite <- Nat2Z.inj_min, Nat2Z.id.
  rewrite (zip_loop A (lit (VArr B)) _ f) by reflexivity.
  cbn [generator fst snd]. do 2 f_equal.
  rewrite <- (nth_seq_firstn A VUndefined) by apply Nat.le_min_l.
  now rewrite map_map.
Qed.

(** ** Access by position *)

Lemma js_gt_numbers (a b : Z) : js_gt (VNum a) (VNum b) = (b <? a).
Proof.
  unfold js_gt. rewrite js_compare_numbers. unfold Z.ltb.
  rewrite (Z.compare_antisym a b). destruct (a ?= b); reflexivity.
Qed.

Lemma js_le_numbers (a b : Z) : js_le (VNum a) (VNum b) = (a <=? b).
Proof.
  unfold js_le. rewrite js_compare_numbers. unfold Z.leb.
  destruct (a ?= b); reflexivity.
Qed.

Lemma elementAt_number (S : list value) (i : Z) :
  elementAt (VArr S) (Some (lit (VNum i))) =
  if Z.of_nat (length S) <? i then Throw IndexOutOfRange
  else Ok (item_at S i).
Proof.
  unfold elementAt.
  cbn [get_literal lit literal bind length_of].
  rewrite js_gt_numbers.
  destruct (Z.of_nat (length S) <? i); [reflexivity |].
  unfold get_property, index_of_key, item_at.
  destruct (0 <=? i); reflexivity.
Qed.

(** C6.  [elementAt] fails only for an index greater than the length: the
    index equal to the length passes the check and reads [undefined], as a
    negative index does; every index within the array gives its item.
    [elementAtOrDefault] reads whatever the index gives. *)
Theorem C6_elementAt_bound_is_the_length_itself :
  (forall S, elementAt (VArr S) (Some (lit (VNum (Z.of_nat (length S)))))
             = Ok VUndefined) /\
  (forall S i, elementAt (VArr S) (Some (lit (VNum i))) =
               if Z.of_nat (length S) <? i then Throw IndexOutOfRange
               else Ok (item_at S i)) /\
  (forall S i, elementAtOrDefault (VArr S) (Some (lit (VNum i)))
               = Ok (item_at S i)) /\
  elementAt (numbers [1; 2; 3]) (Some (lit (VNum 3))) = Ok VUndefined /\
  elementAt (numbers [1; 2; 3]) (Some (lit (VNum 5)))
  = Throw IndexOutOfRange /\
  elementAt (numbers [1; 2; 3]) (Some (lit (VNum 0))) = Ok (VNum 1).
Proof.
  repeat apply conj; try reflexivity.
  - intros S. rewrite elementAt_number, Z.ltb_irrefl.
    unfold item_at. destruct (Z.leb_spec 0 (Z.of_nat (length S))); [| lia].
    rewrite Nat2Z.id, nth_overflow; [reflexivity | lia].
  - apply elementAt_number.
  - intros S i. unfold elementAtOrDefault, get_property, index_of_key, item_at.
    cbn [get_literal lit literal bind]. destruct (0 <=? i); reflexivity.
Qed.

(** ** Single-item accessors *)

Lemma getFirst_loop_matching (p : PartArgument) (xs : list value) :
  getFirst_loop (Some p) xs None =
  Ok match matching p xs with
     | m :: _ => (true, m)
     | [] => (false, VNull)
     end.
Proof.
  unfold matching. induction xs as [| x xs IH]; [reflexivity |].
  cbn [getFirst_loop get_func bind filter].
  destruct (matches_or_absent (func p) x); [reflexivity | exact IH].
Qed.

Lemma getSingle_loop_found (p : PartArgument) (m0 : value)
    (found xs : list value) :
  getSingle_loop (Some p) (m0 :: found) xs None =
  match matching p xs with
  | [] => Ok (true, m0)
  | _ :: _ => Throw MultipleMatches
  end.
Proof.
  unfold matching. induction xs as [| x xs IH]; [reflexivity |].
  cbn [getSingle_loop get_func bind filter].
  destruct (matches_or_absent (func p) x); cbn [negb].
  - destruct (Z.ltb_spec 0 (Z.of_nat (length (m0 :: found))));
      [reflexivity | cbn [length] in *; lia].
  - exact IH.
Qed.

Lemma getSingle_loop_matching (p : PartArgument) (xs : list value) :
  getSingle_loop (Some p) [] xs None =
  match matching p xs with
  | [] => Ok (false, VNull)
  | [m] => Ok (true, m)
  | _ :: _ :: _ => Throw MultipleMatches
  end.
Proof.
  induction xs as [| x xs IH]; [reflexivity |].
  unfold matching in *.
  cbn [getSingle_loop get_func bind filter].
  destruct (matches_or_absent (func p) x); cbn [negb].
  - cbn [length Z.of_nat Z.ltb Z.compare app].
    rewrite getSingle_loop_found. unfold matching.
    destruct (filter (matches_or_absent (func p)) xs); reflexivity.
  - exact IH.
Qed.

Lemma length_of_nonempty_is_truthy (x : value) (xs : list value) :
  length_of (VArr (x :: xs)) = Ok (VNum (Z.of_nat (length (x :: xs)))) /\
  truthy (VNum (Z.of_nat (length (x :: xs)))) = true.
Proof.
  split; [reflexivity |].
  cbn [truthy]. destruct (Z.eqb_spec (Z.of_nat (length (x :: xs))) 0);
    [cbn [length] in *; lia | reflexivity].
Qed.

Lemma matching_without_function (v : value) (xs : list value) :
  matching (lit v) xs = xs.
Proof.
  unfold matching. cbn [lit func matches_or_absent].
  induction xs as [| x xs IH]; [reflexivity |]. cbn [filter]. now rewrite IH.
Qed.

Lemma single_on_array (x : value) (xs : list value) (p : PartArgument) :
  single (VArr (x :: xs)) (Some p) =
  match matching p (x :: xs) with
  | [] => Throw NoMatch
  | [m] => Ok m
  | _ :: _ :: _ => Throw MultipleMatches
  end.
Proof.
  unfold single.
  destruct (length_of_nonempty_is_truthy x xs) as [-> Ht].
  cbn [bind]. rewrite Ht. cbn [negb].
  unfold getSingle. cbn [iterate fst snd].
  rewrite getSingle_loop_matching.
  destruct (matching p (x :: xs)) as [| m [| m' ms]]; reflexivity.
Qed.

Lemma singleOrDefault_on_items (items : value) (xs : list value)
    (p : PartArgument) :
  iterate items = (xs, None) ->
  singleOrDefault items (Some p) =
  match matching p xs with
  | [] => Ok VNull
  | [m] => Ok m
  | _ :: _ :: _ => Throw MultipleMatches
  end.
Proof.
  intros Hit. unfold singleOrDefault, getSingle. rewrite Hit.
  cbn [fst snd]. rewrite getSingle_loop_matching.
  destruct (matching p xs) as [| m [| m' ms]]; reflexivity.
Qed.

Lemma first_on_array (x : value) (xs : list value) (p : PartArgument) :
  first (VArr (x :: xs)) (Some p) =
  match matching p (x :: xs) with
  | [] => Throw NoMatch
  | m :: _ => Ok m
  end.
Proof.
  unfold first.
  destruct (length_of_nonempty_is_truthy x xs) as [-> Ht].
  cbn [bind]. rewrite Ht. cbn [negb].
  unfold getFirst. cbn [iterate fst snd].
  rewrite getFirst_loop_matching.
  destruct (matching p (x :: xs)) as [| m ms]; reflexivity.
Qed.

Lemma firstOrDefault_on_items (items : value) (xs : list value)
    (p : PartArgument) :
  iterate items = (xs, None) ->
  firstOrDefault items (Some p) =
  match matching p xs with
  | [] => Ok VNull
  | m :: _ => Ok m
  end.
Proof.
  intros Hit. unfold firstOrDefault, getFirst. rewrite Hit.
  cbn [fst snd]. rewrite getFirst_loop_matching.
  destruct (matching p xs) as [| m ms]; reflexivity.
Qed.

(** C7.  On an empty array [first] and [single] fail with [EmptySequence]
    and the [OrDefault] variants return [null].  On any array [single]
    returns the item its predicate accepts when there is exactly one, fails
    with [NoMatch] when there is none and with [MultipleMatches] when there
    is more than one; [singleOrDefault] returns [null] when there is none
    and still fails with [MultipleMatches] when there is more than one;
    [first] and [firstOrDefault] return the first accepted item, and fail
    with [NoMatch], respectively return [null], when there is none.  An
    argument without a function accepts every item.

    On a lazily produced sequence, the generator object an operator such
    as [where] returns, the [OrDefault] variants do the same, but [first]
    and [single] read [items.length], which a generator object does not
    have: they fail with [EmptySequence] whatever the sequence yields, so
    [single] after [where] on [1; 2] neither returns the unique match [2]
    nor fails with [MultipleMatches]. *)
Theorem C7_first_and_single :
  (forall p, first (VArr []) p = Throw EmptySequence) /\
  (forall p, firstOrDefault (VArr []) p = Ok VNull) /\
  (forall p, single (VArr []) p = Throw EmptySequence) /\
  (forall p, singleOrDefault (VArr []) p = Ok VNull) /\
  (forall x xs p,
     single (VArr (x :: xs)) (Some p) =
     match matching p (x :: xs) with
     | [] => Throw NoMatch
     | [m] => Ok m
     | _ :: _ :: _ => Throw MultipleMatches
     end) /\
  (forall xs p,
     singleOrDefault (VArr xs) (Some p) =
     match matching p xs with
     | [] => Ok VNull
     | [m] => Ok m
     | _ :: _ :: _ => Throw MultipleMatches
     end) /\
  (forall x xs p,
     first (VArr (x :: xs)) (Some p) =
     match matching p (x :: xs) with
     | [] => Throw NoMatch
     | m :: _ => Ok m
     end) /\
  (forall xs p,
     firstOrDefault (VArr xs) (Some p) =
     match matching p xs with
     | [] => Ok VNull
     | m :: _ => Ok m
     end) /\
  single (numbers [1; 2]) (Some (greater_than 0)) = Throw MultipleMatches /\
  single (numbers [1; 2]) (Some (greater_than 1)) = Ok (VNum 2) /\
  singleOrDefault (numbers [1; 2]) (Some (greater_than 0))
  = Throw MultipleMatches /\
  singleOrDefault (numbers [1; 2]) (Some (greater_than 2)) = Ok VNull /\
  (forall v x xs, first (VArr (x :: xs)) (Some (lit v)) = Ok x) /\
  (forall v x xs, firstOrDefault (VArr (x :: xs)) (Some (lit v)) = Ok x) /\
  (forall v x, single (VArr [x]) (Some (lit v)) = Ok x) /\
  (forall v x y xs,
     single (VArr (x :: y :: xs)) (Some (lit v)) = Throw MultipleMatches) /\
  (forall v x y xs,
     singleOrDefault (VArr (x :: y :: xs)) (Some (lit v))
     = Throw MultipleMatches) /\
  (forall ys e p, first (VGen ys e) p = Throw EmptySequence) /\
  (forall ys e p, single (VGen ys e) p = Throw EmptySequence) /\
  (forall ys p,
     firstOrDefault (VGen ys None) (Some p) =
     match matching p ys with
     | [] => Ok VNull
     | m :: _ => Ok m
     end) /\
  (forall ys p,
     singleOrDefault (VGen ys None) (Some p) =
     match matching p ys with
     | [] => Ok VNull
     | [m] => Ok m
     | _ :: _ :: _ => Throw MultipleMatches
     end) /\
  where_ (numbers [1; 2]) (Some (greater_than 0))
  = Ok (VGen [VNum 1; VNum 2] None) /\
  single (VGen [VNum 1; VNum 2] None) (Some (greater_than 1))
  = Throw EmptySequence /\
  single (VGen [VNum 1; VNum 2] None) (Some (greater_than 0))
  = Throw EmptySequence /\
  (forall js_add js_div,
     execute js_add js_div (numbers [1; 2])
       (Some [part QF_where [greater_than 0];
              part QF_single [greater_than 1]])
     = Throw EmptySequence) /\
  (forall js_add js_div,
     execute js_add js_div (numbers [1; 2])
       (Some [part QF_where [greater_than 0];
              part QF_first [greater_than 1]])
     = Throw EmptySequence) /\
  (forall js_add js_div,
     execute js_add js_div (numbers [1; 2])
       (Some [part QF_where [greater_than 0];
              part QF_singleOrDefault [greater_than 1]])
     = Ok (VNum 2)).
Proof.
  repeat apply conj; try reflexivity; intros.
  (* arrays, with a predicate *)
  all: try apply single_on_array.
  all: try apply first_on_array.
  (* arrays and generators that end, for the variants without a check *)
  all: try (now apply singleOrDefault_on_items).
  all: try (now apply firstOrDefault_on_items).
  (* arrays, with an argument that carries no function *)
  all: try (now rewrite first_on_array, matching_without_function).
  all: try (now rewrite single_on_array, matching_without_function).
  all: try (now erewrite firstOrDefault_on_items, matching_without_function).
  all: now erewrite singleOrDefault_on_items, matching_without_function.
Qed.

(** ** Take and its producer *)

Lemma drain_unbounded (f : nat -> value) (m k : nat) :
  drain (S m) (unbounded f) (Some (lit (VNum (Z.of_nat (k + m)))))
        {| counter := Z.of_nat k; pulled := k; finished := false |}
  = Some (map f (seq k m), None,
          {| counter := Z.of_nat (k + m) + 1;
             pulled := k + m + 1;
             finished := true |}).
Proof.
  revert k. induction m as [| m IH]; intros k.
  - cbn [drain take_next finished pulled counter unbounded get_literal lit
         literal].
    rewrite js_le_numbers. rewrite Nat.add_0_r.
    destruct (Z.leb_spec (Z.of_nat k + 1) (Z.of_nat k)); [lia |].
    reflexivity.
  - change (drain (S (S m)) ?u ?c ?st)
      with (match take_next u c st with
            | (Ok (Some x), st') =>
                match drain (S m) u c st' with
                | Some (ys, e, st'') => Some (x :: ys, e, st'')
                | None => None
                end
            | (Ok None, st') => Some ([], None, st')
            | (Throw err, st') => Some ([], Some err, st')
            end).
    cbn [take_next finished pulled counter unbounded get_literal lit literal].
    rewrite js_le_numbers.
    destruct (Z.leb_spec (Z.of_nat k + 1) (Z.of_nat (k + S m))); [| lia].
    replace (Z.of_nat k + 1) with (Z.of_nat (S k)) by lia.
    replace (k + 1)%nat with (S k) by lia.
    replace (k + S m)%nat with (S k + m)%nat by lia.
    rewrite IH. reflexivity.
Qed.

(** C9.  Draining [take(up, n)] over a producer that never ends: after
    [n + 1] calls of [next()] the generator is done, having yielded the
    first [n] items, and it has asked the producer [n + 1] times: once for
    each item it yields, and once more for the item on which the loop
    breaks.  Over the natural numbers [take] of [2] yields [0; 1] and pulls
    [0], [1] and [2]. *)
Theorem C9_take_pulls_one_item_more :
  (forall (f : nat -> value) (n : nat),
     drain (n + 1) (unbounded f) (Some (lit (VNum (Z.of_nat n)))) take_start
     = Some (map f (seq 0 n), None,
             {| counter := Z.of_nat n + 1;
                pulled := n + 1;
                finished := true |})) /\
  drain 3 naturals (Some (lit (VNum 2))) take_start
  = Some ([VNum 0; VNum 1], None,
          {| counter := 3; pulled := 3; finished := true |}).
Proof.
  split; [| reflexivity].
  intros f n. pose proof (drain_unbounded f n 0) as H.
  cbn [Nat.add Z.of_nat] in H.
  rewrite Nat.add_1_r at 1. exact H.
Qed.

(** Draining [take] over the producer of an array gives what the generator
    of [take] is embedded as. *)
Lemma drain_array (xs : list value) (count : arg) (up : producer) :
  forall (c : Z) (p : nat),
    (forall j, up (p + j)%nat = nth_error xs j) ->
    exists st',
      drain (S (length xs)) up count
            {| counter := c; pulled := p; finished := false |}
      = Some (fst (for_of (take_turn count) c xs None),
              match snd (for_of (take_turn count) c xs None) with
              | Ok _ => None
              | Throw err => Some err
              end,
              st').
Proof.
  induction xs as [| x xs IH]; intros c p Hup.
  - specialize (Hup 0%nat). rewrite Nat.add_0_r in Hup. cbn in Hup.
    cbn [length drain take_next finished pulled counter]. rewrite Hup.
    eexists. reflexivity.
  - pose proof (Hup 0%nat) as H0. rewrite Nat.add_0_r in H0. cbn in H0.
    change (drain (S (length (x :: xs))) up count ?st)
      with (match take_next up count st with
            | (Ok (Some y), st') =>
                match drain (S (length xs)) up count st' with
                | Some (ys, e, st'') => Some (y :: ys, e, st'')
                | None => None
                end
            | (Ok None, st') => Some ([], None, st')
            | (Throw err, st') => Some ([], Some err, st')
            end).
    cbn [take_next finished pulled counter for_of]. rewrite H0.
    destruct (get_literal count) as [n | err] eqn:Hl.
    + destruct (js_le (VNum (c + 1)) n) eqn:Hle.
      * assert (Ht : take_turn count c x = Continue [x] (c + 1))
          by (unfold take_turn; rewrite Hl; cbn [stepping];
              now rewrite Hle).
        rewrite Ht.
        destruct (IH (c + 1) (p + 1)%nat) as [st' Hd].
        { intros j. transitivity (up (p + S j)%nat);
            [f_equal; lia | exact (Hup (S j))]. }
        rewrite Hd.
        destruct (for_of (take_turn count) (c + 1) xs None) as [ys r].
        eexists. reflexivity.
      * assert (Ht : take_turn count c x = Break [] (c + 1))
          by (unfold take_turn; rewrite Hl; cbn [stepping];
              now rewrite Hle).
        rewrite Ht. eexists. reflexivity.
    + assert (Ht : take_turn count c x = Raise [] err)
        by (unfold take_turn; now rewrite Hl).
      rewrite Ht. eexists. reflexivity.
Qed.

Lemma take_is_what_draining_gives (xs : list value) (count : arg) :
  exists ys e st',
    drain (S (length xs)) (array_producer xs) count take_start
    = Some (ys, e, st') /\
    take (VArr xs) count = Ok (VGen ys e).
Proof.
  destruct (drain_array xs count (array_producer xs) 0 0%nat) as [st' H].
  { intros j. reflexivity. }
  do 3 eexists. split; [exact H | reflexivity].
Qed.

(** ** The source array is left as it was *)

Lemma extends_refl (st : store) : extends st st.
Proof. exists []. now rewrite app_nil_r. Qed.

Lemma extends_trans (st1 st2 st3 : store) :
  extends st1 st2 -> extends st2 st3 -> extends st1 st3.
Proof.
  intros [f1 ->] [f2 ->]. exists (f1 ++ f2). now rewrite app_assoc.
Qed.

Lemma extends_alloc (st : store) (xs : list value) :
  extends st (snd (alloc st xs)).
Proof. now exists [xs]. Qed.

Lemma extends_read (st st' : store) (l : loc) :
  extends st st' -> (l < length st)%nat -> read st' l = read st l.
Proof.
  intros [fresh ->] Hl. unfold read. now apply app_nth1.
Qed.

Lemma extends_length (st st' : store) :
  extends st st' -> (length st <= length st')%nat.
Proof.
  intros [fresh ->]. rewrite length_app. lia.
Qed.

(** Writing into the array that was allocated last touches no other. *)
Lemma write_fresh (st : store) (xs ys : list value) :
  write (st ++ [xs]) (length st) ys = st ++ [ys].
Proof.
  induction st as [| a st IH]; [reflexivity |].
  cbn [app length write]. now rewrite IH.
Qed.

Lemma read_fresh (st : store) (xs : list value) :
  read (st ++ [xs]) (length st) = xs.
Proof. unfold read. now rewrite nth_middle. Qed.

(** What [orderBy_st] does to the store: the sorted copy is one fresh
    array, and the reference returned is to it. *)
Lemma orderBy_st_fresh (st : store) (items : operand)
    (keySelectors : list QueryPart) :
  match orderBy (deref st items) keySelectors with
  | Ok v =>
      exists sorted,
        v = VArr sorted /\
        orderBy_st st items keySelectors
        = (st ++ [sorted], Ok (Ref (length st)))
  | Throw err =>
      exists st', extends st st' /\
                  orderBy_st st items keySelectors = (st', Throw err)
  end.
Proof.
  unfold orderBy, orderBy_st, slice_st, sort_st, alloc.
  destruct (slice (deref st items)) as [copy | err]; cbn [bind fst snd].
  - rewrite read_fresh.
    destruct (sort (comparator keySelectors) copy) as [sorted | err].
    + exists sorted. now rewrite write_fresh.
    + exists (st ++ [copy]). split; [now exists [copy] | reflexivity].
  - exists st. split; [apply extends_refl | reflexivity].
Qed.

Lemma orderBy_st_extends (st : store) (items : operand)
    (keySelectors : list QueryPart) :
  extends st (fst (orderBy_st st items keySelectors)).
Proof.
  pose proof (orderBy_st_fresh st items keySelectors) as H.
  destruct (orderBy (deref st items) keySelectors).
  - destruct H as (sorted & _ & ->). now exists [sorted].
  - destruct H as (st' & Hext & ->). exact Hext.
Qed.

Lemma defaultIfEmpty_st_extends (st : store) (items : operand) :
  extends st (fst (defaultIfEmpty_st st items)).
Proof.
  unfold defaultIfEmpty_st. destruct (truthy (deref st items)).
  - apply extends_refl.
  - apply extends_alloc.
Qed.

Section Frame.

Variable js_add : value -> value -> value.
Variable js_div : value -> value -> value.

Lemma handlePart_st_extends (st : store) (items : operand)
    (p : QueryPart) :
  extends st (fst (handlePart_st js_add js_div st items p)).
Proof.
  unfold handlePart_st.
  destruct (funcs js_add js_div (type p)); [| apply extends_refl].
  destruct (type p); try apply extends_refl.
  apply defaultIfEmpty_st_extends.
Qed.

Lemma execute_loop_st_extends (parts : list QueryPart) :
  forall st items val orderParts,
    extends st
      (fst (execute_loop_st js_add js_div st items parts val orderParts)).
Proof.
  induction parts as [| p rest IH]; intros st items val orderParts.
  - apply extends_refl.
  - cbn [execute_loop_st].
    destruct (truthy (VNum (Z.lnot (indexOf thenFuncs (type p))))); [apply IH |].
    destruct (truthy (VNum (Z.of_nat (length orderParts)))).
    + pose proof (orderBy_st_extends st items orderParts) as H1.
      destruct (orderBy_st st items orderParts) as [st1 [v | err]];
        cbn [fst] in H1; [| exact H1].
      pose proof (handlePart_st_extends st1 v p) as H2.
      destruct (handlePart_st js_add js_div st1 v p) as [st2 [v' | err]];
        cbn [fst] in H2.
      * eapply extends_trans; [exact H1 |].
        eapply extends_trans; [exact H2 | apply IH].
      * eapply extends_trans; eassumption.
    + pose proof (handlePart_st_extends st val p) as H2.
      destruct (handlePart_st js_add js_div st val p) as [st2 [v' | err]];
        cbn [fst] in H2.
      * eapply extends_trans; [exact H2 | apply IH].
      * exact H2.
Qed.

Lemma execute_st_extends (st : store) (items : operand)
    (parts : option (list QueryPart)) :
  extends st (fst (execute_st js_add js_div st items parts)).
Proof.
  unfold execute_st. destruct parts as [[| p ps] |]; try apply extends_refl.
  destruct (check (deref st items)); [| apply extends_refl].
  apply execute_loop_st_extends.
Qed.

(** C10.  Whatever the parts, and whether the pipeline returns or throws,
    the store [execute] leaves behind is the store it found followed by
    fresh arrays: every array that was there, the source among them, has
    the items it had, in the order they were in.  The sorted array of an
    ordering run is one of the fresh ones: sorting the source [3; 1; 2]
    leaves it at its location and puts the sorted copy behind it. *)
Theorem C10_execute_leaves_the_source_unchanged :
  (forall st items parts,
     exists fresh,
       fst (execute_st js_add js_div st items parts) = st ++ fresh) /\
  (forall st items parts src,
     (src < length st)%nat ->
     read (fst (execute_st js_add js_div st items parts)) src
     = read st src) /\
  (forall st items keySelectors,
     exists fresh,
       fst (orderBy_st st items keySelectors) = st ++ fresh) /\
  execute_st js_add js_div [[VNum 3; VNum 1; VNum 2]] (Ref 0%nat)
    (Some [part QF_thenBy [identity]; part QF_count [absent]])
  = ([[VNum 3; VNum 1; VNum 2]; [VNum 3; VNum 2; VNum 1]],
     Ok (Val (VNum 3))).
Proof.
  repeat apply conj.
  - intros st items parts. apply execute_st_extends.
  - intros st items parts src Hsrc.
    apply extends_read; [apply execute_st_extends | exact Hsrc].
  - intros st items keySelectors. apply orderBy_st_extends.
  - reflexivity.
Qed.

End Frame.

(** ** The executor over the store computes what [execute] computes *)

Lemma deref_extends (st st' : store) (o : operand) :
  extends st st' -> operand_ok st o -> deref st' o = deref st o.
Proof.
  intros Hext Hok. destruct o as [l | v]; [| reflexivity].
  cbn [deref]. now rewrite (extends_read st st' l Hext Hok).
Qed.

Lemma operand_ok_extends (st st' : store) (o : operand) :
  extends st st' -> operand_ok st o -> operand_ok st' o.
Proof.
  intros Hext Hok. destruct o as [l | v]; [| exact I].
  cbn [operand_ok] in *. pose proof (extends_length st st' Hext). lia.
Qed.

Section Refinement.

Variable js_add : value -> value -> value.
Variable js_div : value -> value -> value.

Lemma handlePart_st_refines (st : store) (items : operand) (p : QueryPart) :
  operand_ok st items ->
  outcome (handlePart_st js_add js_div st items p)
  = handlePart js_add js_div (deref st items) p /\
  outcome_ok (handlePart_st js_add js_div st items p).
Proof.
  intros Hok. unfold handlePart_st, handlePart, outcome, outcome_ok.
  destruct (type p);
    cbn [funcs fst snd];
    try (split; [reflexivity | exact I]);
    try (match goal with
         | |- context [bind ?r _] => destruct r
         end; cbn [bind fst snd deref]; (split; [reflexivity | exact I])).
  unfold defaultIfEmpty_st, op1, defaultIfEmpty, alloc.
  destruct (truthy (deref st items)); cbn [fst snd].
  - split; [reflexivity | exact Hok].
  - cbn [deref]. rewrite read_fresh. split; [reflexivity |].
    cbn [operand_ok]. rewrite length_app. cbn [length]. lia.
Qed.

Lemma orderBy_st_refines (st : store) (items : operand)
    (keySelectors : list QueryPart) :
  outcome (orderBy_st st items keySelectors)
  = orderBy (deref st items) keySelectors /\
  outcome_ok (orderBy_st st items keySelectors).
Proof.
  pose proof (orderBy_st_fresh st items keySelectors) as H.
  unfold outcome, outcome_ok.
  destruct (orderBy (deref st items) keySelectors) as [v | err].
  - destruct H as (sorted & -> & ->). cbn [fst snd deref operand_ok].
    rewrite read_fresh, length_app. cbn [length]. split; [reflexivity | lia].
  - destruct H as (st' & _ & ->). split; [reflexivity | exact I].
Qed.

Lemma execute_loop_st_refines (parts : list QueryPart) :
  forall st items val orderParts,
    operand_ok st items ->
    operand_ok st val ->
    outcome (execute_loop_st js_add js_div st items parts val orderParts)
    = execute_loop js_add js_div (deref st items) parts (deref st val)
        orderParts.
Proof.
  induction parts as [| p rest IH]; intros st items val orderParts Hi Hv.
  - reflexivity.
  - cbn [execute_loop_st execute_loop].
    destruct (truthy (VNum (Z.lnot (indexOf thenFuncs (type p)))));
      [now apply IH |].
    destruct (truthy (VNum (Z.of_nat (length orderParts)))).
    + destruct (orderBy_st_refines st items orderParts) as [Ho Hoo].
      pose proof (orderBy_st_extends st items orderParts) as He.
      rewrite <- Ho. unfold outcome, outcome_ok in *.
      destruct (orderBy_st st items orderParts) as [st1 [v | err]];
        cbn [fst snd bind] in *; [| reflexivity].
      destruct (handlePart_st_refines st1 v p Hoo) as [Hh Hho].
      pose proof (handlePart_st_extends js_add js_div st1 v p) as He2.
      rewrite <- Hh. unfold outcome, outcome_ok in *.
      destruct (handlePart_st js_add js_div st1 v p) as [st2 [v' | err]];
        cbn [fst snd bind] in *; [| reflexivity].
      assert (He3 : extends st st2) by (eapply extends_trans; eassumption).
      rewrite <- (deref_extends st st2 items He3 Hi).
      apply IH; [now apply (operand_ok_extends st) | exact Hho].
    + cbn [bind fst snd].
      destruct (handlePart_st_refines st val p Hv) as [Hh Hho].
      pose proof (handlePart_st_extends js_add js_div st val p) as He2.
      rewrite <- Hh. unfold outcome, outcome_ok in *.
      destruct (handlePart_st js_add js_div st val p) as [st2 [v' | err]];
        cbn [fst snd bind] in *; [| reflexivity].
      rewrite <- (deref_extends st st2 items He2 Hi).
      apply IH; [now apply (operand_ok_extends st) | exact Hho].
Qed.

(** The executor over the store returns what [execute] returns on the
    contents of the source. *)
Lemma execute_st_refines (st : store) (items : operand)
    (parts : option (list QueryPart)) :
  operand_ok st items ->
  outcome (execute_st js_add js_div st items parts)
  = execute js_add js_div (deref st items) parts.
Proof.
  intros Hok. unfold execute_st, execute.
  destruct parts as [[| p ps] |]; try reflexivity.
  destruct (check (deref st items)); [| reflexivity].
  cbn [bind]. now apply execute_loop_st_refines.
Qed.

End Refinement.

(** The source [3; 1; 2] at location [0] is within the store, and reads the
    same after the ordering pipeline of the example has run. *)
Lemma C10_source_unchanged_witness :
  (0 < length [[VNum 3; VNum 1; VNum 2]])%nat /\
  read (fst (execute_st (fun _ _ => VNaN) (fun _ _ => VNaN)
               [[VNum 3; VNum 1; VNum 2]] (Ref 0%nat)
               (Some [part QF_thenBy [identity]; part QF_count [absent]])))
       0%nat
  = read [[VNum 3; VNum 1; VNum 2]] 0%nat.
Proof.
  split; [cbn; lia |].
  apply (proj1 (proj2 (C10_execute_leaves_the_source_unchanged
                         (fun _ _ => VNaN) (fun _ _ => VNaN)))).
  cbn. lia.
Defined.

(** ** Further properties of the operators *)

(** The executor over the store agrees with [execute] on the pipeline of
    the example of C10. *)
Lemma execute_st_refines_witness :
  operand_ok [[VNum 3; VNum 1; VNum 2]] (Ref 0%nat) /\
  outcome (execute_st (fun _ _ => VNaN) (fun _ _ => VNaN)
             [[VNum 3; VNum 1; VNum 2]] (Ref 0%nat)
             (Some [part QF_thenBy [identity]; part QF_count [absent]]))
  = execute (fun _ _ => VNaN) (fun _ _ => VNaN)
      (deref [[VNum 3; VNum 1; VNum 2]] (Ref 0%nat))
      (Some [part QF_thenBy [identity]; part QF_count [absent]]).
Proof.
  split; [cbn; lia |].
  apply execute_st_refines. cbn. lia.
Defined.

Lemma select_array (xs : list value) (f : value -> value) :
  select (VArr xs) (Some (unary f)) = Ok (VGen (map f xs) None).
Proof.
  unfold select, for_of_value. cbn [iterate fst snd].
  assert (H : for_of
                (fun (_ : unit) i =>
                   stepping (call_func (Some (unary f)) [i])
                            (fun v => Continue [v] tt))
                tt xs None = (map f xs, Ok tt)).
  { induction xs as [| x xs IH]; [reflexivity |].
    cbn [for_of call_func get_func unary func bind stepping nth map].
    cbn [for_of call_func get_func unary func bind stepping nth map] in IH.
    now rewrite IH. }
  now rewrite H.
Qed.

Lemma select_generator (ys : list value) (e : option error)
    (g : value -> value) :
  select (VGen ys e) (Some (unary g)) = Ok (VGen (map g ys) e).
Proof.
  unfold select, for_of_value. cbn [iterate fst snd].
  assert (H : for_of
                (fun (_ : unit) i =>
                   stepping (call_func (Some (unary g)) [i])
                            (fun v => Continue [v] tt))
                tt ys e
              = (map g ys, match e with
                           | None => Ok tt
                           | Some err => Throw err
                           end)).
  { induction ys as [| y ys IH]; [reflexivity |].
    cbn [for_of call_func get_func unary func bind stepping nth map].
    cbn [for_of call_func get_func unary func bind stepping nth map] in IH.
    now rewrite IH. }
  rewrite H. unfold generator. cbn [fst snd]. now destruct e.
Qed.

(** [select] after [select] is [select] with the composed selector. *)
Theorem select_composes (xs : list value) (f g : value -> value) :
  (s <- select (VArr xs) (Some (unary f)) ;; select s (Some (unary g)))
  = select (VArr xs) (Some (unary (fun x => g (f x)))).
Proof.
  rewrite !select_array. cbn [bind]. rewrite select_generator.
  now rewrite map_map.
Qed.

(** [average] of the empty array is [0], whatever the host's arithmetic;
    [aggregate] folds from the left, starting at the seed. *)
Theorem average_of_empty_and_aggregate :
  (forall js_add js_div selector,
     average js_add js_div (VArr []) selector = Ok (VNum 0)) /\
  (forall (f : value -> value -> value) xs seed,
     aggregate (VArr xs)
       (Some {| func := Some (fun a => f (nth 0 a VUndefined)
                                         (nth 1 a VUndefined));
                literal := VUndefined |})
       (Some (lit seed)) (Some absent)
     = Ok (fold_left f xs seed)).
Proof.
  split; [reflexivity |].
  intros f xs seed. unfold aggregate.
  cbn [as_array get_literal lit literal bind].
  revert seed. induction xs as [| x xs IH]; intros seed; [reflexivity |].
  cbn [reduce fold_left get_func selected absent lit func bind call_func nth].
  apply IH.
Qed.

(** ** Loops that run to the end *)

Lemma for_of_continue {S : Type} (body : S -> value -> step S) (s : S)
    (out : value -> list value) (xs : list value) (e : option error) :
  (forall x, body s x = Continue (out x) s) ->
  for_of body s xs e = (flat_map out xs, ending e s).
Proof.
  intros Hbody. induction xs as [| x xs IH]; [now destruct e |].
  cbn [for_of flat_map]. now rewrite Hbody, IH.
Qed.

Lemma flat_map_filter (keep : value -> bool) (xs : list value) :
  flat_map (fun x => if keep x then [x] else []) xs = filter keep xs.
Proof.
  induction xs as [| x xs IH]; [reflexivity |].
  cbn [flat_map filter]. rewrite IH. now destruct (keep x).
Qed.

Lemma flat_map_singleton (f : value -> value) (xs : list value) :
  flat_map (fun x => [f x]) xs = map f xs.
Proof.
  induction xs as [| x xs IH]; [reflexivity |].
  cbn [flat_map map app]. now rewrite IH.
Qed.

Lemma generator_ending {S : Type} (ys : list value) (e : option error)
    (s : S) :
  generator (ys, ending e s) = VGen ys e.
Proof. unfold generator. cbn [fst snd]. now destruct e. Qed.

(** ** Where, select, selectMany *)

(** [where] keeps the items its predicate accepts, in their order, whether
    it reads an array or the generator of an operator before it, and ends
    as its input ends; [where] after [where] keeps what both accept. *)
Theorem where_keeps_the_accepted_items :
  (forall xs p,
     where_ (VArr xs) (Some (unary p))
     = Ok (VGen (filter (accepts p) xs) None)) /\
  (forall ys e p,
     where_ (VGen ys e) (Some (unary p))
     = Ok (VGen (filter (accepts p) ys) e)) /\
  (forall xs p q,
     (s <- where_ (VArr xs) (Some (unary p)) ;; where_ s (Some (unary q)))
     = where_ (VArr xs)
         (Some (unary (fun x => VBool (accepts p x && accepts q x))))).
Proof.
  assert (Hloop : forall p xs e,
            for_of
              (fun (_ : unit) i =>
                 stepping (call_func (Some (unary p)) [i]) (fun b =>
                 Continue (if truthy b then [i] else []) tt))
              tt xs e
            = (filter (accepts p) xs, ending e tt)).
  { intros p xs e.
    rewrite (for_of_continue _ tt (fun x => if accepts p x then [x] else []))
      by reflexivity.
    now rewrite flat_map_filter. }
  assert (Harr : forall xs p,
            where_ (VArr xs) (Some (unary p))
            = Ok (VGen (filter (accepts p) xs) None)).
  { intros xs p. unfold where_, for_of_value. cbn [iterate fst snd].
    now rewrite Hloop, generator_ending. }
  assert (Hgen : forall ys e p,
            where_ (VGen ys e) (Some (unary p))
            = Ok (VGen (filter (accepts p) ys) e)).
  { intros ys e p. unfold where_, for_of_value. cbn [iterate fst snd].
    now rewrite Hloop, generator_ending. }
  repeat apply conj; [exact Harr | exact Hgen |].
  intros xs p q. rewrite !Harr. cbn [bind]. rewrite Hgen.
  do 2 f_equal. induction xs as [| x xs IH]; [reflexivity |].
  cbn [filter].
  change (accepts (fun x0 => VBool (accepts p x0 && accepts q x0)) x)
    with (accepts p x && accepts q x).
  destruct (accepts p x); cbn [filter andb].
  - destruct (accepts q x); now rewrite IH.
  - exact IH.
Qed.

(** [selectMany] yields the items of the arrays its selector returns, one
    array after the other. *)
Theorem selectMany_flattens (xs : list value) (g : value -> list value) :
  selectMany (VArr xs) (Some (unary (fun x => VArr (g x))))
  = Ok (VGen (flat_map g xs) None).
Proof.
  unfold selectMany, for_of_value. cbn [iterate fst snd].
  rewrite (for_of_continue _ tt g) by reflexivity.
  now rewrite generator_ending.
Qed.

Lemma then_test_is_then_kind (t : QueryFunc) :
  truthy (VNum (Z.lnot (indexOf thenFuncs t))) = then_kind t.
Proof. destruct t; reflexivity. Qed.


(** ** Take, skip and their predicate forms *)

Lemma generator_cons {S : Type} (x : value) (b : list value * result S)
    (ys : list value) (e : option error) :
  generator b = VGen ys e ->
  generator (let (zs, r) := b in ([x] ++ zs, r)) = VGen (x :: ys) e.
Proof.
  destruct b as [zs r]. unfold generator. cbn [fst snd app].
  intros H. injection H as -> ->. reflexivity.
Qed.

Lemma generator_skip {S : Type} (b : list value * result S)
    (ys : list value) (e : option error) :
  generator b = VGen ys e ->
  generator (let (zs, r) := b in ([] ++ zs, r)) = VGen ys e.
Proof. now destruct b. Qed.

Lemma take_loop (n : Z) (xs : list value) (e : option error) :
  forall c,
    generator (for_of (take_turn (Some (lit (VNum n)))) c xs e)
    = VGen (firstn (Z.to_nat (n - c)) xs)
           (if (Z.to_nat (n - c) <? length xs)%nat then None else e).
Proof.
  induction xs as [| x xs IH]; intros c.
  - cbn [for_of length]. rewrite firstn_nil.
    destruct (Z.to_nat (n - c)); now destruct e.
  - cbn [for_of]. unfold take_turn at 1.
    cbn [get_literal lit literal stepping]. rewrite js_le_numbers.
    destruct (Z.leb_spec (c + 1) n) as [Hle | Hgt].
    + replace (Z.to_nat (n - c)) with (S (Z.to_nat (n - (c + 1)))) by lia.
      cbn [firstn length]. change (S ?a <? S ?b)%nat with (a <? b)%nat.
      apply generator_cons, IH.
    + replace (Z.to_nat (n - c)) with 0%nat by lia. reflexivity.
Qed.

Lemma skip_loop (n : Z) (xs : list value) (e : option error) :
  forall c,
    generator
      (for_of
         (fun (i : Z) item =>
            stepping (get_literal (Some (lit (VNum n)))) (fun m =>
            Continue (if js_gt (VNum (i + 1)) m then [item] else [])
                     (i + 1)))
         c xs e)
    = VGen (skipn (Z.to_nat (n - c)) xs) e.
Proof.
  induction xs as [| x xs IH]; intros c.
  - cbn [for_of]. rewrite skipn_nil. now destruct e.
  - cbn [for_of get_literal lit literal stepping]. rewrite js_gt_numbers.
    destruct (Z.ltb_spec n (c + 1)) as [Hlt | Hge].
    + replace (Z.to_nat (n - c)) with 0%nat by lia. cbn [skipn].
      apply generator_cons. rewrite IH.
      now replace (Z.to_nat (n - (c + 1))) with 0%nat by lia.
    + replace (Z.to_nat (n - c)) with (S (Z.to_nat (n - (c + 1)))) by lia.
      cbn [skipn]. apply generator_skip, IH.
Qed.

(** With a count [n], [take] yields the first [n] items and [skip] the
    items after them, so the two split their input; a count that is zero
    or negative makes [take] yield nothing and [skip] everything.  [take]
    ends without asking for more when an item is left over, so an input
    that would throw after more than [n] items does not; [skip] ends as
    its input ends. *)
Theorem take_and_skip_split_the_input :
  (forall ys e n,
     take (VGen ys e) (Some (lit (VNum n)))
     = Ok (VGen (firstn (Z.to_nat n) ys)
                (if (Z.to_nat n <? length ys)%nat then None else e))) /\
  (forall ys e n,
     skip (VGen ys e) (Some (lit (VNum n)))
     = Ok (VGen (skipn (Z.to_nat n) ys) e)) /\
  (forall xs n,
     take (VArr xs) (Some (lit (VNum n)))
     = Ok (VGen (firstn (Z.to_nat n) xs) None)) /\
  (forall xs n,
     skip (VArr xs) (Some (lit (VNum n)))
     = Ok (VGen (skipn (Z.to_nat n) xs) None)) /\
  (forall (xs : list value) n,
     firstn (Z.to_nat n) xs ++ skipn (Z.to_nat n) xs = xs).
Proof.
  repeat apply conj.
  - intros ys e n. unfold take, for_of_value. cbn [iterate fst snd].
    rewrite take_loop. now rewrite Z.sub_0_r.
  - intros ys e n. unfold skip, for_of_value. cbn [iterate fst snd].
    rewrite skip_loop. now rewrite Z.sub_0_r.
  - intros xs n. unfold take, for_of_value. cbn [iterate fst snd].
    rewrite take_loop, Z.sub_0_r.
    now destruct (Z.to_nat n <? length xs)%nat.
  - intros xs n. unfold skip, for_of_value. cbn [iterate fst snd].
    rewrite skip_loop. now rewrite Z.sub_0_r.
  - intros xs n. apply firstn_skipn.
Qed.

Lemma for_of_ext {S : Type} (body body' : S -> value -> step S) (s : S)
    (xs : list value) (e : option error) :
  (forall s x, body s x = body' s x) ->
  for_of body s xs e = for_of body' s xs e.
Proof.
  intros H. revert s. induction xs as [| x xs IH]; intros s; [reflexivity |].
  cbn [for_of]. rewrite H. destruct (body' s x); [| reflexivity ..].
  now rewrite IH.
Qed.

Lemma takeWhile_loop (p : value -> value) (xs : list value)
    (e : option error) :
  generator
    (for_of
       (fun (_ : unit) i =>
          stepping (call_func (Some (unary p)) [i]) (fun b =>
          if truthy b then Continue [i] tt else Break [] tt))
       tt xs e)
  = VGen (while_prefix (accepts p) xs)
         (if forallb (accepts p) xs then e else None).
Proof.
  induction xs as [| x xs IH]; [cbn; now destruct e |].
  cbn [for_of call_func get_func unary func bind stepping nth
       while_prefix forallb].
  change (truthy (p x)) with (accepts p x).
  destruct (accepts p x); cbn [andb]; [| reflexivity].
  apply generator_cons, IH.
Qed.

(** [takeWhile] yields the longest prefix of items its predicate accepts.
    [skipWhile] does not skip: it yields the items before the first one its
    predicate accepts and stops there, which is [takeWhile] with the
    predicate negated, whatever it is called on. *)
Theorem skipWhile_is_takeWhile_negated :
  (forall xs p,
     takeWhile (VArr xs) (Some (unary p))
     = Ok (VGen (while_prefix (accepts p) xs) None)) /\
  (forall xs p,
     skipWhile (VArr xs) (Some (unary p))
     = Ok (VGen (while_prefix (fun x => negb (accepts p x)) xs) None)) /\
  (forall items p,
     skipWhile items (Some (unary p))
     = takeWhile items
         (Some (unary (fun x => VBool (negb (accepts p x)))))).
Proof.
  assert (Hneg : forall items p,
            skipWhile items (Some (unary p))
            = takeWhile items
                (Some (unary (fun x => VBool (negb (accepts p x)))))).
  { intros items p. unfold skipWhile, takeWhile, for_of_value.
    do 2 f_equal. apply for_of_ext. intros [] x.
    cbn [call_func get_func unary func bind stepping nth truthy].
    change (truthy (p x)) with (accepts p x).
    now destruct (accepts p x). }
  assert (Htake : forall xs p,
            takeWhile (VArr xs) (Some (unary p))
            = Ok (VGen (while_prefix (accepts p) xs) None)).
  { intros xs p. unfold takeWhile, for_of_value. cbn [iterate fst snd].
    rewrite takeWhile_loop. now destruct (forallb (accepts p) xs). }
  repeat apply conj; [exact Htake | | exact Hneg].
  intros xs p. rewrite Hneg, Htake. reflexivity.
Qed.

(** ** Concatenation *)

(** [concatWith] yields its input, then the other array.  When the input
    is a generator that ends by throwing, the other array is not reached
    and the result ends the same way. *)
Theorem concatWith_appends :
  (forall xs os,
     concatWith (VArr xs) (Some (lit (VArr os)))
     = Ok (VGen (xs ++ os) None)) /\
  (forall ys os,
     concatWith (VGen ys None) (Some (lit (VArr os)))
     = Ok (VGen (ys ++ os) None)) /\
  (forall ys err os,
     concatWith (VGen ys (Some err)) (Some (lit (VArr os)))
     = Ok (VGen ys (Some err))) /\
  (forall items, concatWith items None = Ok (VGen [] (Some TypeError))).
Proof.
  assert (Hid : forall xs e,
            for_of (fun (_ : unit) i => Continue [i] tt) tt xs e
            = (xs, ending e tt)).
  { intros xs e.
    rewrite (for_of_continue _ tt (fun x => [x])) by reflexivity.
    now rewrite flat_map_singleton, map_id. }
  repeat apply conj; intros; unfold concatWith, for_of_value;
    cbn [getArray get_func get_literal lit func literal bind try iterate
         fst snd]; try reflexivity;
    rewrite !Hid; reflexivity.
Qed.

(** ** Set operators *)

Lemma error_eqb_eq (a b : error) : error_eqb a b = true <-> a = b.
Proof.
  destruct a, b; cbn; split; intros H; try discriminate H; try reflexivity.
  - destruct (QueryFunc_eq_dec t t0); [now subst | discriminate H].
  - injection H as ->. now destruct (QueryFunc_eq_dec t0 t0).
Qed.

Lemma same_items_eq (xs : list value) :
  Forall (fun x => forall y, same_object x y = true <-> x = y) xs ->
  forall ys, same_items xs ys = true <-> xs = ys.
Proof.
  induction 1 as [| x xs Hx _ IH]; intros [| y ys]; cbn [same_items];
    try (split; intros H; discriminate H); [now split |].
  rewrite andb_true_iff, Hx, IH. split.
  - now intros [-> ->].
  - intros H. injection H as -> ->. now split.
Qed.

(** [same_object] decides the equality of values. *)
Lemma same_object_eq (a : value) :
  forall b, same_object a b = true <-> a = b.
Proof.
  induction a as [| | x | n | | xs IH | k xs IHk IH | ys e IH]
    using value_ind_deep;
    intros b; destruct b;
    try (split; intros H; discriminate H); try now split.
  - cbn [same_object]. destruct x, b; cbn; split; intros H;
      try discriminate H; reflexivity.
  - cbn [same_object]. rewrite Z.eqb_eq. split; [now intros -> |].
    intros H. now injection H.
  - change (same_object (VArr xs) (VArr xs0)) with (same_items xs xs0).
    rewrite (same_items_eq xs IH). split; [now intros -> |].
    intros H. now injection H.
  - change (same_object (VGroup k xs) (VGroup b xs0))
      with (same_object k b && same_items xs xs0).
    rewrite andb_true_iff, IHk, (same_items_eq xs IH). split.
    + now intros [-> ->].
    + intros H. injection H as -> ->. now split.
  - change (same_object (VGen ys e) (VGen ys0 e0))
      with (same_items ys ys0 &&
            match e, e0 with
            | None, None => true
            | Some x, Some y => error_eqb x y
            | _, _ => false
            end).
    rewrite andb_true_iff, (same_items_eq ys IH). split.
    + intros [-> He]. destruct e as [x |], e0 as [y |];
        try discriminate He; [| reflexivity].
      apply error_eqb_eq in He. now subst.
    + intros H. injection H as -> ->. split; [reflexivity |].
      destruct e0 as [y |]; [now apply error_eqb_eq | reflexivity].
Qed.

Lemma set_has_In (s : list value) (x : value) :
  set_has s x = true <-> In x s.
Proof.
  unfold set_has. rewrite existsb_exists. split.
  - intros (y & Hy & Hxy). apply same_object_eq in Hxy. now subst.
  - intros H. exists x. split; [exact H | now apply same_object_eq].
Qed.

Lemma set_has_not_In (s : list value) (x : value) :
  set_has s x = false <-> ~ In x s.
Proof.
  rewrite <- set_has_In. now destruct (set_has s x).
Qed.

Lemma NoDup_snoc (s : list value) (x : value) :
  NoDup s -> ~ In x s -> NoDup (s ++ [x]).
Proof.
  intros Hs Hx. apply (NoDup_Add (a := x) (l := s ++ [])).
  - apply Add_app.
  - rewrite app_nil_r. now split.
Qed.

(** The loop the three set operators share: it yields the items [keep]
    accepts that are neither in the set [seen] nor yielded before, and
    leaves the set with the yielded items added. *)
Lemma set_loop (keep : value -> bool) (xs : list value) (e : option error) :
  forall seen,
    NoDup seen ->
    exists ys,
      for_of (set_turn keep) seen xs e = (ys, ending e (seen ++ ys)) /\
      NoDup (seen ++ ys) /\
      (forall x, In x ys <-> In x xs /\ keep x = true /\ ~ In x seen).
Proof.
  induction xs as [| x xs IH]; intros seen Hseen.
  - exists []. rewrite app_nil_r.
    split; [reflexivity |]. split; [exact Hseen |].
    intros x. split; [intros [] | now intros [[] _]].
  - cbn [for_of]. unfold set_turn at 1.
    destruct (keep x && negb (set_has seen x)) eqn:Hk.
    + apply andb_true_iff in Hk as [Hkeep Hnew].
      apply negb_true_iff, set_has_not_In in Hnew.
      destruct (IH (seen ++ [x]) (NoDup_snoc seen x Hseen Hnew))
        as (ys & Hloop & Hnd & Hin).
      rewrite Hloop. rewrite <- app_assoc in *. cbn [app] in *.
      exists (x :: ys).
      split; [reflexivity |]. split; [exact Hnd |].
      intros z. split.
      * intros [<- | Hz].
        { split; [now left |]. now split. }
        apply Hin in Hz as (Hz & Hkz & Hnz).
        split; [now right |]. split; [exact Hkz |].
        intros Hs. apply Hnz, in_or_app. now left.
      * intros ([<- | Hz] & Hkz & Hnz); [now left |].
        destruct (same_object z x) eqn:Hsame.
        { apply same_object_eq in Hsame. left. now subst. }
        right. apply Hin. split; [exact Hz |]. split; [exact Hkz |].
        intros Hs. apply in_app_or in Hs as [Hs | [<- | []]];
          [now apply Hnz |].
        assert (same_object x x = true) by now apply same_object_eq.
        congruence.
    + destruct (IH seen Hseen) as (ys & Hloop & Hnd & Hin).
      rewrite Hloop. exists ys.
      split; [reflexivity |]. split; [exact Hnd |].
      intros z. split.
      * intros Hz. apply Hin in Hz as (Hz & Hkz & Hnz).
        split; [now right |]. now split.
      * intros ([<- | Hz] & Hkz & Hnz); [| now apply Hin].
        apply set_has_not_In in Hnz. rewrite Hkz, Hnz in Hk.
        discriminate Hk.
Qed.

(** The set operators on two arrays of primitive items, which a [Set]
    compares by value, yield no item twice.  [intersect] yields the items
    of the first array that are items of the second, [except] those that
    are not, and [union] the items of either: so the items of [intersect]
    are among those of the first array, and the first array's items are
    those of [intersect] and those of [except]. *)
Theorem set_operators_on_arrays (A B : list value) :
  primitives A = true ->
  primitives B = true ->
  (exists ys, intersect (VArr A) (Some (lit (VArr B))) = Ok (VGen ys None) /\
              NoDup ys /\
              forall x, In x ys <-> In x A /\ In x B) /\
  (exists ys, except (VArr A) (Some (lit (VArr B))) = Ok (VGen ys None) /\
              NoDup ys /\
              forall x, In x ys <-> In x A /\ ~ In x B) /\
  (exists ys, union (VArr A) (Some (lit (VArr B))) = Ok (VGen ys None) /\
              NoDup ys /\
              forall x, In x ys <-> In x A \/ In x B).
Proof.
  intros _ _. repeat apply conj.
  - destruct (set_loop (fun i => set_has B i) A None [] (NoDup_nil _))
      as (ys & Hloop & Hnd & Hin).
    exists ys. split; [| split; [exact Hnd | intros x; split]].
    + unfold intersect, for_of_value.
      cbn [getArray get_func get_literal lit func literal bind new_set
           iterate fst snd try].
      now rewrite Hloop.
    + intros Hx. apply Hin in Hx as (Hx & Hk & _).
      split; [exact Hx | now apply set_has_In].
    + intros [Hx Hb]. apply Hin. split; [exact Hx |].
      split; [now apply set_has_In | intros []].
  - destruct (set_loop (fun i => negb (set_has B i)) A None []
                (NoDup_nil _)) as (ys & Hloop & Hnd & Hin).
    exists ys. split; [| split; [exact Hnd | intros x; split]].
    + unfold except, for_of_value.
      cbn [getArray get_func get_literal lit func literal bind new_set
           iterate fst snd try].
      now rewrite Hloop.
    + intros Hx. apply Hin in Hx as (Hx & Hk & _).
      split; [exact Hx | now apply set_has_not_In, negb_true_iff].
    + intros [Hx Hb]. apply Hin. split; [exact Hx |].
      split; [now apply negb_true_iff, set_has_not_In | intros []].
  - destruct (set_loop (fun _ => true) A None [] (NoDup_nil _))
      as (ys1 & Hloop1 & Hnd1 & Hin1).
    cbn [app ending] in Hloop1, Hnd1.
    destruct (set_loop (fun _ => true) B None ys1 Hnd1)
      as (ys2 & Hloop2 & Hnd2 & Hin2).
    exists (ys1 ++ ys2). split; [| split; [exact Hnd2 | intros x; split]].
    + unfold union, for_of_value, and_then.
      cbn [iterate fst snd]. rewrite Hloop1. cbn [fst snd].
      cbn [getArray get_func get_literal lit func literal bind try iterate
           fst snd].
      now rewrite Hloop2.
    + intros Hx. apply in_app_or in Hx as [Hx | Hx].
      * left. now apply Hin1.
      * right. now apply Hin2.
    + intros Hx. apply in_or_app.
      destruct (set_has ys1 x) eqn:Hs.
      * left. now apply set_has_In.
      * apply set_has_not_In in Hs. destruct Hx as [Hx | Hx].
        { left. apply Hin1. split; [exact Hx |]. split; [reflexivity | intros []]. }
        right. apply Hin2. split; [exact Hx |]. now split.
Qed.

Lemma set_operators_on_arrays_witness :
  primitives (map VNum [1; 2; 2; 3]) = true /\
  primitives (map VNum [2; 3; 4]) = true /\
  exists ys,
    intersect (numbers [1; 2; 2; 3]) (Some (lit (numbers [2; 3; 4])))
    = Ok (VGen ys None) /\
    NoDup ys /\
    forall x, In x ys <-> In x (map VNum [1; 2; 2; 3]) /\
                          In x (map VNum [2; 3; 4]).
Proof.
  split; [reflexivity |]. split; [reflexivity |].
  apply (proj1 (set_operators_on_arrays (map VNum [1; 2; 2; 3])
                  (map VNum [2; 3; 4]) eq_refl eq_refl)).
Defined.

(** ** Joins *)

Lemma flat_map_filter_map (keep : value -> bool) (f : value -> value)
    (xs : list value) :
  flat_map (fun x => if keep x then [f x] else []) xs
  = map f (filter keep xs).
Proof.
  induction xs as [| x xs IH]; [reflexivity |].
  cbn [flat_map filter]. rewrite IH. now destruct (keep x).
Qed.

Lemma flat_map_nothing (xs : list value) :
  flat_map (fun _ : value => @nil value) xs = [].
Proof. induction xs as [| x xs IH]; [reflexivity | exact IH]. Qed.

Lemma joinWith_inner (k1 k2 : value -> value) (f : value -> value -> value)
    (i : value) (os : list value) (e : option error) :
  for_of
    (fun (_ : unit) o =>
       stepping (call_func (Some (unary k2)) [o]) (fun ok =>
       if deepEqual ok (k1 i)
       then stepping (call_func (Some (binary f)) [i; o]) (fun r =>
            Continue [r] tt)
       else Continue [] tt))
    tt os e
  = (map (f i) (partners k1 k2 os i), ending e tt).
Proof.
  rewrite (for_of_continue _ tt
             (fun o => if deepEqual (k2 o) (k1 i) then [f i o] else [])).
  - unfold partners. now rewrite flat_map_filter_map.
  - intros o. cbn [call_func get_func unary binary func bind stepping nth].
    now destruct (deepEqual (k2 o) (k1 i)).
Qed.

Lemma filterM_total (keep : value -> bool) (xs : list value) :
  filterM (fun o => Ok (keep o)) xs = Ok (filter keep xs).
Proof.
  induction xs as [| x xs IH]; [reflexivity |].
  cbn [filterM filter bind]. rewrite IH. cbn [bind]. now destruct (keep x).
Qed.

(** [joinWith] over two arrays is the inner join: for each item of the
    source in turn, the selector applied to it and to each item of the
    other array whose key is deep-equal to its own.  [groupJoin] yields one
    item for every item of the source, the selector applied to it and to
    the array of those partners, empty when it has none.  When the other
    sequence is a generator, it is drained by the first item of the
    source: [joinWith] pairs the first item only. *)
Theorem joins_on_arrays (k1 k2 : value -> value)
    (f : value -> value -> value) :
  (forall xs os,
     joinWith (VArr xs) (Some (lit (VArr os))) (Some (unary k1))
       (Some (unary k2)) (Some (binary f))
     = Ok (VGen (flat_map (fun i => map (f i) (partners k1 k2 os i)) xs)
                None)) /\
  (forall xs os,
     groupJoin (VArr xs) (Some (lit (VArr os))) (Some (unary k1))
       (Some (unary k2)) (Some (binary f))
     = Ok (VGen (map (fun i => f i (VArr (partners k1 k2 os i))) xs) None)) /\
  (forall x xs os,
     joinWith (VArr (x :: xs)) (Some (lit (VGen os None))) (Some (unary k1))
       (Some (unary k2)) (Some (binary f))
     = Ok (VGen (map (f x) (partners k1 k2 os x)) None)).
Proof.
  repeat apply conj.
  - intros xs os. unfold joinWith, for_of_value.
    cbn [getArray get_func get_literal lit func literal bind try iterate
         fst snd].
    rewrite (for_of_continue _ (VArr os)
               (fun i => map (f i) (partners k1 k2 os i))).
    + now rewrite generator_ending.
    + intros i. change (call_func (Some (unary k1)) [i]) with (Ok (k1 i)).
      cbn [stepping iterate fst snd]. rewrite joinWith_inner. reflexivity.
  - intros xs os. unfold groupJoin, for_of_value.
    cbn [getArray get_func get_literal lit func literal bind try iterate
         fst snd].
    rewrite (for_of_continue _ tt
               (fun i => [f i (VArr (partners k1 k2 os i))])).
    + now rewrite flat_map_singleton, generator_ending.
    + intros i.
      cbn [call_func get_func unary binary func bind stepping nth
           filter_of].
      rewrite (filterM_total (fun o => deepEqual (k2 o) (k1 i))).
      reflexivity.
  - intros x xs os. unfold joinWith, for_of_value.
    cbn [getArray get_func get_literal lit func literal bind try iterate
         fst snd for_of].
    change (call_func (Some (unary k1)) [x]) with (Ok (k1 x)).
    cbn [stepping iterate fst snd]. rewrite joinWith_inner.
    cbn [ending fst snd].
    cbn [drained].
    rewrite (for_of_continue _ (VGen [] None) (fun _ => [])).
    + rewrite flat_map_nothing, app_nil_r. reflexivity.
    + intros i. reflexivity.
Qed.

(** ** Reverse *)

Lemma for_of_indices (A : list value) (indices : list nat) :
  for_of
    (fun (_ : unit) i =>
       stepping (get_property (VArr A) i) (fun x => Continue [x] tt))
    tt (map (fun i => VNum (Z.of_nat i)) indices) None
  = (map (fun i => nth i A VUndefined) indices, Ok tt).
Proof.
  induction indices as [| i indices IH]; [reflexivity |].
  cbn [map for_of]. rewrite get_property_index. cbn [stepping].
  now rewrite IH.
Qed.

(** [reverse] starts at the index [items.length]: it yields [undefined]
    first and then the items from the last to the first, one item more
    than the array holds. *)
Theorem reverse_yields_undefined_first (xs : list value) :
  reverse (VArr xs) = Ok (VGen (VUndefined :: rev xs) None).
Proof.
  unfold reverse, countdown. cbn [length_of try to_number].
  replace (Z.to_nat (Z.of_nat (length xs) + 1)) with (S (length xs)) by lia.
  rewrite for_of_indices. cbn [generator fst snd].
  rewrite seq_S, rev_app_distr. cbn [Nat.add rev app map].
  rewrite nth_overflow by lia. rewrite map_rev.
  rewrite (nth_seq_firstn xs VUndefined (length xs)) by lia.
  now rewrite firstn_all.
Qed.

(** ** Last *)

Lemma matching_rev (p : PartArgument) (xs : list value) :
  matching p (rev xs) = rev (matching p xs).
Proof.
  unfold matching. induction xs as [| x xs IH]; [reflexivity |].
  cbn [rev filter]. rewrite filter_app, IH. cbn [filter].
  now destruct (matches_or_absent (func p) x); cbn [rev];
    rewrite ?app_nil_r.
Qed.


(** ** Quantifiers and counting *)

Lemma with_index_items (arr : value) (xs : list value) :
  forall s,
    map (fun a => nth 0 a VUndefined)
        (map (fun '(i, x) => [x; VNum (Z.of_nat i); arr])
             (combine (seq s (length xs)) xs))
    = xs.
Proof.
  induction xs as [| x xs IH]; intros s; [reflexivity |].
  cbn [length seq combine map nth]. now rewrite IH.
Qed.

Lemma with_index_unary (xs : list value) (f : value -> value) :
  map (fun a => f (nth 0 a VUndefined)) (with_index xs) = map f xs.
Proof.
  rewrite <- (map_map (fun a => nth 0 a VUndefined) f).
  unfold with_index. now rewrite with_index_items.
Qed.

Lemma existsb_through_map {A B : Type} (g : A -> B) (F : B -> bool)
    (l : list A) :
  existsb (fun a => F (g a)) l = existsb F (map g l).
Proof.
  induction l as [| a l IH]; [reflexivity |]. cbn. now rewrite IH.
Qed.

Lemma forallb_through_map {A B : Type} (g : A -> B) (F : B -> bool)
    (l : list A) :
  forallb (fun a => F (g a)) l = forallb F (map g l).
Proof.
  induction l as [| a l IH]; [reflexivity |]. cbn. now rewrite IH.
Qed.

Lemma filter_length_through_map {A B : Type} (g : A -> B) (F : B -> bool)
    (l : list A) :
  length (filter (fun a => F (g a)) l) = length (filter F (map g l)).
Proof.
  induction l as [| a l IH]; [reflexivity |].
  cbn [filter map]. destruct (F (g a)); cbn [length]; now rewrite IH.
Qed.

(** On an array, with a predicate of one parameter: [any] tells whether
    some item is accepted, [all] whether every item is, [count] how many
    are.  Without a predicate [any] tells whether the array has an item
    and [count] is its length.  So [count] never exceeds the length, [all]
    holds when it reaches it and [any] when it is not zero. *)
Theorem quantifiers_on_arrays (xs : list value) (p : value -> value) :
  any (VArr xs) (Some (unary p)) = Ok (VBool (existsb (accepts p) xs)) /\
  all (VArr xs) (Some (unary p)) = Ok (VBool (forallb (accepts p) xs)) /\
  count (VArr xs) (Some (unary p))
  = Ok (VNum (Z.of_nat (length (filter (accepts p) xs)))) /\
  any (VArr xs) (Some absent) = Ok (VBool (negb (length xs =? 0)%nat)) /\
  count (VArr xs) (Some absent) = Ok (VNum (Z.of_nat (length xs))) /\
  (length (filter (accepts p) xs) <= length xs)%nat /\
  forallb (accepts p) xs
  = (length (filter (accepts p) xs) =? length xs)%nat /\
  existsb (accepts p) xs = negb (length (filter (accepts p) xs) =? 0)%nat.
Proof.
  repeat apply conj.
  - unfold any. cbn [get_func unary func bind some_of].
    rewrite (existsb_through_map
               (fun a => p (nth 0 a VUndefined)) truthy).
    now rewrite with_index_unary, <- existsb_through_map.
  - unfold all. cbn [get_func unary func bind every_of].
    rewrite (forallb_through_map
               (fun a => p (nth 0 a VUndefined)) truthy).
    now rewrite with_index_unary, <- forallb_through_map.
  - unfold count. cbn [get_func unary func bind filtered_length].
    rewrite (filter_length_through_map
               (fun a => p (nth 0 a VUndefined)) truthy).
    now rewrite with_index_unary, <- filter_length_through_map.
  - unfold any. cbn [get_func absent lit func bind length_of].
    rewrite js_gt_numbers. destruct xs; reflexivity.
  - reflexivity.
  - apply filter_length_le.
  - induction xs as [| x xs IH]; [reflexivity |].
    cbn [forallb filter]. pose proof (filter_length_le (accepts p) xs).
    destruct (accepts p x); cbn [andb length].
    + exact IH.
    + symmetry. apply Nat.eqb_neq. lia.
  - induction xs as [| x xs IH]; [reflexivity |].
    cbn [existsb filter]. destruct (accepts p x); cbn [orb length];
      [reflexivity | exact IH].
Qed.

(** ** A terminal operator after a lazy one *)

Lemma with_counter_items (ys : list value) :
  forall s,
    map (fun a => nth 0 a VUndefined)
        (map (fun '(i, y) => [y; VNum (Z.of_nat i)])
             (combine (seq s (length ys)) ys))
    = ys.
Proof.
  induction ys as [| y ys IH]; intros s; [reflexivity |].
  cbn [length seq combine map nth]. now rewrite IH.
Qed.

Lemma with_counter_unary (ys : list value) (f : value -> value) :
  map (fun a => f (nth 0 a VUndefined)) (with_counter ys) = map f ys.
Proof.
  rewrite <- (map_map (fun a => nth 0 a VUndefined) f).
  unfold with_counter. now rewrite with_counter_items.
Qed.

Section Pipelines.

Variable js_add : value -> value -> value.
Variable js_div : value -> value -> value.

(** A [function*] entry of [funcs] returns its generator whatever it is
    called on: what its body throws waits for the first pull. *)
Lemma lazy_operator_returns_a_generator (t : QueryFunc) (items : value)
    (a : list PartArgument) :
  lazy_kind t = true ->
  exists ys e, handlePart js_add js_div items (part t a) = Ok (VGen ys e).
Proof.
  intros Ht. destruct t; try discriminate Ht;
    do 2 eexists; unfold handlePart; cbn [funcs part type args];
    reflexivity.
Qed.

(** The running value a lazy operator leaves is a generator object, which
    yields items [ys] and ends by [e].  It has no [length], no indexed
    item, no [slice] and no [indexOf], and the methods it inherits from
    [Iterator.prototype] pull from it.  Whatever the array [xs] holds:
    [first], [single] and [last] fail with [EmptySequence]; [count]
    returns [undefined], with a predicate or without; [any] without a
    predicate returns [false]; [contains] throws; [average] returns [0];
    [elementAt] returns [undefined] at every index; [distinct] and
    [reverse] yield nothing.  [any] and [all] with a predicate of one
    parameter, [sum] and [aggregate] run over [ys]: [any] ends at the first
    item accepted and [all] at the first one rejected, and otherwise all
    four end as the generator ends. *)
Theorem terminal_after_lazy_operator (t : QueryFunc)
    (a : list PartArgument) (xs : list value) :
  lazy_kind t = true ->
  exists ys e,
    handlePart js_add js_div (VArr xs) (part t a) = Ok (VGen ys e) /\
    let after := fun (terminal : QueryFunc) (b : list PartArgument) =>
      execute js_add js_div (VArr xs) (Some [part t a; part terminal b]) in
    (forall b, after QF_first b = Throw EmptySequence) /\
    (forall b, after QF_single b = Throw EmptySequence) /\
    (forall b, after QF_last b = Throw EmptySequence) /\
    (forall p, after QF_count [p] = Ok VUndefined) /\
    (forall v, after QF_any [lit v] = Ok (VBool false)) /\
    (forall b, after QF_contains b = Throw TypeError) /\
    (forall b, after QF_average b = Ok (VNum 0)) /\
    (forall i, after QF_elementAt [lit i] = Ok VUndefined) /\
    (forall c, after QF_distinct [c] = Ok (VGen [] None)) /\
    (forall b, after QF_reverse b = Ok (VGen [] None)) /\
    (forall p, after QF_any [unary p] =
               if existsb (accepts p) ys then Ok (VBool true)
               else pulled_all e (VBool false)) /\
    (forall p, after QF_all [unary p] =
               if forallb (accepts p) ys then pulled_all e (VBool true)
               else Ok (VBool false)) /\
    (forall sel, after QF_sum [sel] =
                 (r <- sum js_add (VArr ys) (Some sel) ;; pulled_all e r)) /\
    (forall f seed sel,
       after QF_aggregate [f; seed; sel] =
       (r <- aggregate (VArr ys) (Some f) (Some seed) (Some sel) ;;
        pulled_all e r)).
Proof.
  intros Ht.
  assert (Hgt : forall i, js_gt i VUndefined = false).
  { intros i. unfold js_gt, js_compare. cbn [is_object andb to_number].
    rewrite andb_false_r. now destruct (to_number i). }
  destruct (lazy_operator_returns_a_generator t (VArr xs) a Ht)
    as (ys & e & Hgen).
  exists ys, e. split; [exact Hgen |]. cbv zeta.
  assert (Hrun : forall terminal b,
            then_kind terminal = false ->
            execute js_add js_div (VArr xs)
              (Some [part t a; part terminal b])
            = handlePart js_add js_div (VGen ys e) (part terminal b)).
  { intros terminal b Hk. unfold execute. cbn [check truthy negb bind].
    cbn [execute_loop]. rewrite !then_test_is_then_kind.
    cbn [type part]. rewrite Hk.
    replace (then_kind t) with false
      by (destruct t; try discriminate Ht; reflexivity).
    cbn [length Z.of_nat truthy Z.eqb negb bind fst snd].
    rewrite Hgen. cbn [bind].
    now destruct (handlePart js_add js_div (VGen ys e) (part terminal b)). }
  repeat apply conj; intros; rewrite Hrun by reflexivity;
    unfold handlePart; cbn [funcs part type args]; try reflexivity.
  - unfold op2, count. cbn [nth_error get_func bind].
    now destruct (func p).
  - unfold op2, elementAt.
    cbn [nth_error get_literal lit literal bind length_of].
    now rewrite Hgt.
  - unfold op2, any. cbn [nth_error get_func unary func bind some_of].
    rewrite (existsb_through_map
               (fun a => p (nth 0 a VUndefined)) truthy).
    rewrite with_counter_unary, <- existsb_through_map.
    fold (accepts p).
    destruct (existsb (accepts p) ys); [reflexivity |].
    now destruct e.
  - unfold op2, all. cbn [nth_error get_func unary func bind every_of].
    rewrite (forallb_through_map
               (fun a => p (nth 0 a VUndefined)) truthy).
    rewrite with_counter_unary, <- forallb_through_map.
    fold (accepts p).
    destruct (forallb (accepts p) ys); [| reflexivity].
    now destruct e.
Qed.

End Pipelines.

(** [where] is a lazy kind; on [3; 1; 2] with the numbers over [1] kept,
    [first] fails and [sum] adds up what [where] yields. *)
Lemma terminal_after_lazy_operator_witness :
  lazy_kind QF_where = true /\
  execute plus_exact (fun _ _ => VNaN)
    (numbers [3; 1; 2])
    (Some [part QF_where [greater_than 1]; part QF_first [absent]])
  = Throw EmptySequence /\
  execute plus_exact (fun _ _ => VNaN)
    (numbers [3; 1; 2])
    (Some [part QF_where [greater_than 1]; part QF_sum [absent]])
  = Ok (VNum 5).
Proof.
  split; [reflexivity |].
  destruct (terminal_after_lazy_operator
              plus_exact
              (fun _ _ => VNaN)
              QF_where [greater_than 1] (map VNum [3; 1; 2]) eq_refl)
    as (ys & e & Hgen & Hfirst & _ & _ & _ & _ & _ & _ & _ & _ & _ & _ & _
        & Hsum & _).
  split; [apply Hfirst |].
  vm_compute in Hgen. injection Hgen as <- <-.
  rewrite Hsum. reflexivity.
Defined.

(** ** Minimum and maximum *)

(** [min] and [max] hand the whole array to [Math.min] and [Math.max] as
    one argument, which converts it to a number: both return [0] for the
    empty array, the item for an array of one number, and [NaN] for every
    array of two items or more, with or without a selector. *)
Theorem min_and_max_convert_the_array :
  (forall ns,
     min (numbers ns) (Some absent)
     = Ok match ns with
          | [] => VNum 0
          | [n] => VNum n
          | _ :: _ :: _ => VNaN
          end) /\
  (forall xs k,
     min (VArr xs) (Some (key_arg k))
     = Ok match xs with
          | [] => VNum 0
          | [x] => VNum (k x)
          | _ :: _ :: _ => VNaN
          end) /\
  (forall items selector, max items selector = min items selector).
Proof.
  repeat apply conj.
  - intros [| a [| b ns]]; reflexivity.
  - intros [| a [| b xs]] k; reflexivity.
  - reflexivity.
Qed.

(** ** Ordering runs in a pipeline *)

Section OrderingRuns.

Variable js_add : value -> value -> value.
Variable js_div : value -> value -> value.

Lemma execute_loop_only_then (thens : list QueryPart) :
  all_then thens = true ->
  forall items val orderParts,
    execute_loop js_add js_div items thens val orderParts = Ok val.
Proof.
  induction thens as [| p thens IH]; intros Hall items val orderParts;
    [reflexivity |].
  cbn [all_then forallb] in Hall. apply andb_true_iff in Hall as [Hp Hall].
  cbn [execute_loop]. rewrite then_test_is_then_kind, Hp. now apply IH.
Qed.

Lemma execute_loop_trailing_then (thens : list QueryPart) :
  all_then thens = true ->
  forall parts items val orderParts,
    execute_loop js_add js_div items (parts ++ thens) val orderParts
    = execute_loop js_add js_div items parts val orderParts.
Proof.
  intros Hall. induction parts as [| p parts IH]; intros items val orderParts.
  - cbn [app execute_loop]. now apply execute_loop_only_then.
  - cbn [app execute_loop]. destruct (truthy _); [apply IH |].
    destruct (truthy _).
    + destruct (orderBy items orderParts) as [v | err]; cbn [bind fst snd];
        [| reflexivity].
      destruct (handlePart js_add js_div v p); cbn [bind];
        [apply IH | reflexivity].
    + cbn [bind fst snd].
      destruct (handlePart js_add js_div val p); cbn [bind];
        [apply IH | reflexivity].
Qed.

(** Ordering parts at the end of a pipeline have no effect: the buffer
    they are collected in is never sorted, and [execute] returns what it
    returns without them. *)
Theorem trailing_ordering_parts_are_ignored (items : value)
    (p : QueryPart) (parts thens : list QueryPart) :
  all_then thens = true ->
  execute js_add js_div items (Some (p :: parts ++ thens))
  = execute js_add js_div items (Some (p :: parts)).
Proof.
  intros Hall. unfold execute. destruct (check items); [| reflexivity].
  cbn [bind]. now apply (execute_loop_trailing_then thens Hall (p :: parts)).
Qed.

Lemma execute_loop_pending_ignores_value (parts : list QueryPart) :
  forall items val val' orderParts,
    orderParts <> [] ->
    all_then parts = false ->
    execute_loop js_add js_div items parts val orderParts
    = execute_loop js_add js_div items parts val' orderParts.
Proof.
  induction parts as [| p parts IH]; intros items val val' orderParts Hne Hnot.
  - discriminate Hnot.
  - cbn [execute_loop]. rewrite then_test_is_then_kind.
    cbn [all_then forallb] in Hnot.
    destruct (then_kind (type p)).
    + apply IH; [now destruct orderParts | exact Hnot].
    + destruct orderParts as [| o orderParts]; [now elim Hne |].
      replace (truthy (VNum (Z.of_nat (length (o :: orderParts)))))
        with true; [reflexivity |].
      cbn [truthy length]. symmetry. apply negb_true_iff, Z.eqb_neq. lia.
Qed.

(** When an ordering run is flushed, the sort is applied to the source,
    not to the running value: a part in front of the run that does not
    throw has no effect on what [execute] returns. *)
Theorem ordering_run_restarts_from_the_source (xs : list value)
    (q th p : QueryPart) (thens rest : list QueryPart) (v : value) :
  then_kind (type q) = false ->
  handlePart js_add js_div (VArr xs) q = Ok v ->
  all_then (th :: thens) = true ->
  then_kind (type p) = false ->
  execute js_add js_div (VArr xs) (Some (q :: (th :: thens) ++ p :: rest))
  = execute js_add js_div (VArr xs) (Some ((th :: thens) ++ p :: rest)).
Proof.
  intros Hq Hv Hall Hp. unfold execute. cbn [check truthy negb bind app].
  cbn [all_then forallb] in Hall. apply andb_true_iff in Hall as [Hth Hall].
  cbn [execute_loop]. rewrite !then_test_is_then_kind, Hq, Hth.
  cbn [length Z.of_nat truthy Z.eqb negb bind fst snd]. rewrite Hv.
  cbn [bind app].
  apply execute_loop_pending_ignores_value; [discriminate |].
  unfold all_then. rewrite forallb_app. cbn [forallb]. rewrite Hp.
  cbn [andb]. apply andb_false_r.
Qed.

End OrderingRuns.

(** [where] followed by a trailing [thenBy] returns what [where] alone
    returns. *)
Lemma trailing_ordering_parts_are_ignored_witness :
  all_then [part QF_thenBy [identity]] = true /\
  execute (fun _ _ => VNaN) (fun _ _ => VNaN) (numbers [3; 1; 2])
    (Some (part QF_where [greater_than 1] :: [] ++ [part QF_thenBy [identity]]))
  = execute (fun _ _ => VNaN) (fun _ _ => VNaN) (numbers [3; 1; 2])
      (Some (part QF_where [greater_than 1] :: [])).
Proof.
  split; [reflexivity |].
  apply (trailing_ordering_parts_are_ignored (fun _ _ => VNaN)
           (fun _ _ => VNaN)).
  reflexivity.
Defined.

(** [where x > 1] in front of [thenBy] and [count] is lost: the count is
    that of the whole source. *)
Lemma ordering_run_restarts_from_the_source_witness :
  then_kind (type (part QF_where [greater_than 1])) = false /\
  handlePart (fun _ _ => VNaN) (fun _ _ => VNaN) (VArr (map VNum [3; 1; 2]))
    (part QF_where [greater_than 1])
  = Ok (VGen [VNum 3; VNum 2] None) /\
  all_then [part QF_thenBy [identity]] = true /\
  then_kind (type (part QF_count [absent])) = false /\
  execute (fun _ _ => VNaN) (fun _ _ => VNaN) (VArr (map VNum [3; 1; 2]))
    (Some (part QF_where [greater_than 1]
           :: [part QF_thenBy [identity]] ++ part QF_count [absent] :: []))
  = execute (fun _ _ => VNaN) (fun _ _ => VNaN) (VArr (map VNum [3; 1; 2]))
      (Some ([part QF_thenBy [identity]] ++ part QF_count [absent] :: [])).
Proof.
  do 4 (split; [reflexivity |]).
  apply (ordering_run_restarts_from_the_source (fun _ _ => VNaN)
           (fun _ _ => VNaN) (map VNum [3; 1; 2])
           (part QF_where [greater_than 1]) (part QF_thenBy [identity])
           (part QF_count [absent]) [] [] (VGen [VNum 3; VNum 2] None));
    reflexivity.
Defined.

(** ** Sequence equality *)

Lemma forallM_total (F : value -> bool) (xs : list value) :
  forallM (fun x => Ok (F x)) xs = Ok (forallb F xs).
Proof.
  induction xs as [| x xs IH]; [reflexivity |].
  cbn [forallM forallb bind]. destruct (F x); [exact IH | reflexivity].
Qed.

Lemma forallM_ext (p q : value -> result bool) (xs : list value) :
  (forall x, In x xs -> p x = q x) -> forallM p xs = forallM q xs.
Proof.
  induction xs as [| x xs IH]; intros H; [reflexivity |].
  cbn [forallM]. rewrite (H x) by now left.
  destruct (q x) as [[] |]; cbn [bind]; try reflexivity.
  apply IH. intros y Hy. apply H. now right.
Qed.

Lemma same_numbers_eq (a b : list Z) : same_numbers a b = true <-> a = b.
Proof.
  revert b. induction a as [| x a IH]; intros [| y b]; cbn [same_numbers];
    try (split; intros H; discriminate H); [now split |].
  rewrite andb_true_iff, Z.eqb_eq, IH. split.
  - now intros [-> ->].
  - intros H. injection H as -> ->. now split.
Qed.

Lemma same_numbers_by_index (a : list Z) :
  forall b,
    length a = length b ->
    forallb (fun i => loose_eq (nth i (map VNum a) VUndefined)
                               (nth i (map VNum b) VUndefined))
            (seq 0 (length a))
    = same_numbers a b.
Proof.
  induction a as [| x a IH]; intros [| y b] Hlen; try discriminate Hlen;
    [reflexivity |].
  cbn [length seq forallb map nth same_numbers].
  change (loose_eq (VNum x) (VNum y)) with (x =? y). f_equal.
  rewrite <- seq_shift.
  rewrite <- (forallb_through_map S
                (fun i => loose_eq (nth i (map VNum (x :: a)) VUndefined)
                                   (nth i (map VNum (y :: b)) VUndefined))).
  cbn [map nth]. apply IH. now injection Hlen.
Qed.

Lemma forallb_pointwise {A : Type} (F G : A -> bool) (l : list A) :
  (forall a, F a = G a) -> forallb F l = forallb G l.
Proof.
  intros H. induction l as [| a l IH]; [reflexivity |].
  cbn [forallb]. now rewrite H, IH.
Qed.

Lemma same_numbers_length (a b : list Z) :
  same_numbers a b = true -> length a = length b.
Proof.
  intros H. apply same_numbers_eq in H. now subst.
Qed.

(** [sequenceEqual] of an array of numbers against a literal array of
    numbers is [true] exactly when the two hold the same numbers in the
    same order; against a literal that is [null] or [undefined] it is
    [false]. *)
Theorem sequenceEqual_on_numbers :
  (forall a b,
     sequenceEqual (numbers a) (Some (lit (numbers b)))
     = Ok (VBool (same_numbers a b))) /\
  (forall a b, same_numbers a b = true <-> a = b) /\
  (forall items, sequenceEqual items (Some (lit VNull)) = Ok (VBool false)) /\
  (forall items,
     sequenceEqual items (Some (lit VUndefined)) = Ok (VBool false)).
Proof.
  repeat apply conj; try reflexivity; [| apply same_numbers_eq].
  intros a b. unfold sequenceEqual, numbers.
  cbn [get_literal lit literal bind truthy negb length_of].
  change (strict_eq (VNum ?x) (VNum ?y)) with (x =? y).
  rewrite !length_map.
  destruct (Z.eqb_spec (Z.of_nat (length a)) (Z.of_nat (length b)))
    as [Hlen | Hlen]; cbn [negb].
  - apply Nat2Z.inj in Hlen.
    cbn [to_number range]. rewrite Nat2Z.id.
    rewrite (forallM_ext _
               (fun i => Ok (match i with
                             | VNum n =>
                                 loose_eq
                                   (nth (Z.to_nat n) (map VNum a) VUndefined)
                                   (nth (Z.to_nat n) (map VNum b) VUndefined)
                             | _ => false
                             end))).
    + rewrite forallM_total.
      rewrite <- (forallb_through_map (fun i => VNum (Z.of_nat i))).
      cbn [bind]. do 2 f_equal.
      rewrite <- (same_numbers_by_index a b Hlen).
      apply forallb_pointwise. intros i. now rewrite Nat2Z.id.
    + intros x Hx. apply in_map_iff in Hx as (i & <- & _).
      rewrite !get_property_index. cbn [bind]. now rewrite Nat2Z.id.
  - destruct (same_numbers a b) eqn:Hs; [| reflexivity].
    apply same_numbers_length in Hs. lia.
Qed.

(** ** Range and repeat *)

Lemma firstn_of_seq (n : nat) :
  forall s m, firstn n (seq s m) = seq s (Nat.min n m).
Proof.
  induction n as [| n IH]; intros s [| m]; try reflexivity.
  cbn [seq firstn Nat.min]. now rewrite IH.
Qed.

Lemma exact_between (lo hi n : Z) :
  exact lo = true -> exact hi = true -> lo <= n <= hi -> exact n = true.
Proof.
  unfold exact. rewrite !andb_true_iff, !Z.leb_le. lia.
Qed.

Lemma range_items (s : Z) (n : nat) :
  forall from,
    exact (s + Z.of_nat from) = true ->
    exact (s + Z.of_nat (from + n)) = true ->
    all_some (map (plus_index (Some s)) (seq from n))
    = Some (map (fun i => VNum (s + Z.of_nat i)) (seq from n)).
Proof.
  induction n as [| n IH]; intros from Hlo Hhi; [reflexivity |].
  cbn [seq map all_some plus_index]. rewrite Hlo.
  rewrite IH; [reflexivity | | now replace (S from + n)%nat with (from + S n)%nat by lia].
  apply (exact_between (s + Z.of_nat from) (s + Z.of_nat (from + S n)));
    [exact Hlo | exact Hhi | lia].
Qed.

(** For integers a double holds exactly: [Array.range(start, count)]
    yields [count] numbers, the number at position [i] being [start + i],
    when [start + count] is such an integer too; with one argument it
    counts that many numbers from [0]; with a negative count it throws
    before it yields.  [Array.repeat] yields the item [count] times, and
    throws likewise.  [take] of [n] over a range is the range of the
    smaller count. *)
Theorem range_and_repeat :
  (forall s c,
     0 <= c -> exact s = true -> exact c = true -> exact (s + c) = true ->
     Array_range (Some s) (Some c)
     = Some (map (fun i => VNum (s + Z.of_nat i)) (seq 0 (Z.to_nat c)),
             None)) /\
  (forall n, Array_range (Some n) None = Array_range (Some 0) (Some n)) /\
  (forall start c,
     c < 0 -> exact_argument start = true -> exact c = true ->
     Array_range start (Some c) = Some ([], Some ArgumentOutOfRange)) /\
  (forall item c,
     0 <= c -> exact c = true ->
     Array_repeat item c = Some (repeat item (Z.to_nat c), None)) /\
  (forall item c,
     c < 0 -> exact c = true ->
     Array_repeat item c = Some ([], Some ArgumentOutOfRange)) /\
  (forall s c n,
     0 <= c -> 0 <= n ->
     exact s = true -> exact c = true -> exact (s + c) = true ->
     exists ys zs,
       Array_range (Some s) (Some c) = Some (ys, None) /\
       Array_range (Some s) (Some (Z.min n c)) = Some (zs, None) /\
       take (VGen ys None) (Some (lit (VNum n))) = Ok (VGen zs None)).
Proof.
  assert (Hrange : forall s c,
            0 <= c -> exact s = true -> exact c = true ->
            exact (s + c) = true ->
            Array_range (Some s) (Some c)
            = Some (map (fun i => VNum (s + Z.of_nat i))
                        (seq 0 (Z.to_nat c)), None)).
  { intros s c Hc Hs Hec Hsc. unfold Array_range.
    cbn [exact_argument]. rewrite Hs, Hec. cbn [andb].
    destruct (Z.ltb_spec c 0); [lia |].
    rewrite range_items; [reflexivity | |].
    - now rewrite Z.add_0_r.
    - cbn [Nat.add]. now rewrite Z2Nat.id. }
  repeat apply conj.
  - exact Hrange.
  - intros n. unfold Array_range. cbn [exact_argument].
    now rewrite andb_true_r.
  - intros start c Hc Hstart Hec. unfold Array_range.
    cbn [exact_argument]. rewrite Hstart, Hec. cbn [andb].
    destruct (Z.ltb_spec c 0); [reflexivity | lia].
  - intros item c Hc Hec. unfold Array_repeat. rewrite Hec.
    destruct (Z.ltb_spec c 0); [lia |]. do 2 f_equal.
    generalize 0%nat. induction (Z.to_nat c) as [| m IH]; intros s;
      [reflexivity |].
    cbn [seq map repeat]. now rewrite IH.
  - intros item c Hc Hec. unfold Array_repeat. rewrite Hec.
    destruct (Z.ltb_spec c 0); [reflexivity | lia].
  - intros s c n Hc Hn Hs Hec Hsc.
    assert (Hmin : 0 <= Z.min n c <= c) by lia.
    do 2 eexists. split; [now apply Hrange |]. split.
    + apply Hrange; [lia | exact Hs | |].
      * apply (exact_between 0 c); [reflexivity | exact Hec | exact Hmin].
      * apply (exact_between s (s + c)); [exact Hs | exact Hsc | lia].
    + unfold take, for_of_value. cbn [iterate fst snd].
      rewrite take_loop, Z.sub_0_r.
      rewrite length_map, length_seq.
      rewrite firstn_map, firstn_of_seq.
      replace (Nat.min (Z.to_nat n) (Z.to_nat c))
        with (Z.to_nat (Z.min n c)) by lia.
      now destruct (Z.to_nat n <? Z.to_nat c)%nat.
Qed.

(** Five numbers from [3], and the first two of them. *)
Lemma range_and_repeat_witness :
  0 <= 5 /\ 0 <= 2 /\
  exact 3 = true /\ exact 5 = true /\ exact (3 + 5) = true /\
  exists ys zs,
    Array_range (Some 3) (Some 5) = Some (ys, None) /\
    Array_range (Some 3) (Some (Z.min 2 5)) = Some (zs, None) /\
    take (VGen ys None) (Some (lit (VNum 2))) = Ok (VGen zs None).
Proof.
  split; [lia |]. split; [lia |]. do 3 (split; [reflexivity |]).
  apply (proj2 (proj2 (proj2 (proj2 (proj2 range_and_repeat)))));
    solve [lia | reflexivity].
Defined.

(** ** Grouping by a numeric key *)

Lemma has_key_In (z : Z) (gs : list keyed_group) :
  has_key z gs = true <-> In z (map fst gs).
Proof.
  unfold has_key. rewrite existsb_exists, in_map_iff. split.
  - intros (g & Hg & Hz). apply Z.eqb_eq in Hz. now exists g.
  - intros (g & Hz & Hg). exists g. split; [exact Hg | now apply Z.eqb_eq].
Qed.

Lemma push_keyed_fst (z : Z) (i : value) (gs : list keyed_group) :
  map fst (map (push_keyed z i) gs) = map fst gs.
Proof.
  rewrite map_map. apply map_ext. intros g. unfold push_keyed.
  now destruct (fst g =? z).
Qed.

Lemma push_keyed_absent (z : Z) (i : value) (gs : list keyed_group) :
  ~ In z (map fst gs) -> map (push_keyed z i) gs = gs.
Proof.
  induction gs as [| g gs IH]; intros Hz; [reflexivity |].
  cbn [map]. rewrite IH by (intros H; apply Hz; now right).
  unfold push_keyed. destruct (Z.eqb_spec (fst g) z) as [Heq | _];
    [| reflexivity].
  exfalso. apply Hz. now left.
Qed.

Lemma push_to_group_keyed (z : Z) (i : value) (gs : list keyed_group) :
  NoDup (map fst gs) ->
  push_to_group (VNum z) i (map as_group gs)
  = if has_key z gs
    then Some (map as_group (map (push_keyed z i) gs))
    else None.
Proof.
  induction gs as [| g gs IH]; intros Hnd; [reflexivity |].
  cbn [map] in Hnd. inversion Hnd as [| ? ? Hg Hnd']; subst.
  cbn [map push_to_group as_group fst snd has_key existsb].
  change (deepEqual (VNum (fst g)) (VNum z)) with (fst g =? z).
  unfold push_keyed at 1.
  destruct (Z.eqb_spec (fst g) z) as [Heq | Hne]; cbn [orb].
  - subst z. now rewrite (push_keyed_absent (fst g) i gs Hg).
  - rewrite (IH Hnd'). fold (has_key z gs).
    destruct (has_key z gs); [| reflexivity].
    cbn [option_map]. now destruct g.
Qed.

Lemma groupBy_turn_keyed (z : Z) (i : value) (gs : list keyed_group) :
  NoDup (map fst gs) ->
  groupBy_turn (map as_group gs) (VNum z) i
  = map as_group (keyed_turn gs z i).
Proof.
  intros Hnd. unfold groupBy_turn, keyed_turn.
  rewrite (push_to_group_keyed z i gs Hnd).
  destruct (has_key z gs); [reflexivity |].
  now rewrite map_app.
Qed.

Lemma with_key_snoc (k : value -> Z) (z : Z) (pre : list value)
    (x : value) :
  with_key k z (pre ++ [x])
  = with_key k z pre ++ (if k x =? z then [x] else []).
Proof. unfold with_key. now rewrite filter_app. Qed.

Lemma with_key_nonempty (k : value -> Z) (z : Z) (pre : list value) :
  In z (map k pre) -> with_key k z pre <> [].
Proof.
  intros Hz. apply in_map_iff in Hz as (x & Hx & Hin).
  assert (H : In x (with_key k z pre)).
  { apply filter_In. split; [exact Hin | now apply Z.eqb_eq]. }
  intros Hnil. now rewrite Hnil in H.
Qed.

Lemma with_key_empty (k : value -> Z) (z : Z) (pre : list value) :
  ~ In z (map k pre) -> with_key k z pre = [].
Proof.
  intros Hz. unfold with_key. induction pre as [| x pre IH]; [reflexivity |].
  cbn [filter]. destruct (Z.eqb_spec (k x) z) as [Heq | _].
  - exfalso. apply Hz. left. exact Heq.
  - apply IH. intros H. apply Hz. now right.
Qed.

Lemma tl_snoc (l : list value) (x : value) :
  l <> [] -> tl (l ++ [x]) = tl l ++ [x].
Proof. destruct l; [now intros H | reflexivity]. Qed.

Lemma NoDup_snoc_key (l : list Z) (z : Z) :
  NoDup l -> ~ In z l -> NoDup (l ++ [z]).
Proof.
  intros Hl Hz. apply (NoDup_Add (a := z) (l := l ++ [])).
  - apply Add_app.
  - rewrite app_nil_r. now split.
Qed.

Lemma groups_of_turn (k : value -> Z) (pre : list value)
    (gs : list keyed_group) (x : value) :
  groups_of k pre gs ->
  groups_of k (pre ++ [x]) (keyed_turn gs (k x) x).
Proof.
  intros (Hnd & Hcover & Hgroups). unfold keyed_turn.
  destruct (has_key (k x) gs) eqn:Hhas.
  - apply has_key_In in Hhas. split; [| split].
    + now rewrite push_keyed_fst.
    + intros y Hy. rewrite push_keyed_fst.
      apply in_app_or in Hy as [Hy | [<- | []]];
        [now apply Hcover | exact Hhas].
    + intros g' Hg'. apply in_map_iff in Hg' as (g & <- & Hg).
      destruct (Hgroups g Hg) as [Hin Hsnd].
      unfold push_keyed. rewrite map_app, with_key_snoc.
      destruct (Z.eqb_spec (fst g) (k x)) as [Heq | Hne]; cbn [fst snd].
      * rewrite <- Heq, Z.eqb_refl. split; [apply in_or_app; now left |].
        rewrite tl_snoc by now apply with_key_nonempty.
        now rewrite Hsnd.
      * destruct (Z.eqb_spec (k x) (fst g)) as [Heq' | _];
          [now elim Hne |].
        rewrite app_nil_r. split; [apply in_or_app; now left | exact Hsnd].
  - assert (Hnew : ~ In (k x) (map fst gs)).
    { intros H. apply has_key_In in H. congruence. }
    split; [| split].
    + rewrite map_app. now apply NoDup_snoc_key.
    + intros y Hy. rewrite map_app. apply in_or_app.
      apply in_app_or in Hy as [Hy | [<- | []]];
        [left; now apply Hcover | right; now left].
    + intros g Hg. rewrite map_app, with_key_snoc.
      apply in_app_or in Hg as [Hg | [<- | []]].
      * destruct (Hgroups g Hg) as [Hin Hsnd].
        destruct (Z.eqb_spec (k x) (fst g)) as [Heq | _].
        { exfalso. apply Hnew. rewrite Heq. now apply in_map. }
        rewrite app_nil_r. split; [apply in_or_app; now left | exact Hsnd].
      * cbn [fst snd]. rewrite Z.eqb_refl.
        split; [apply in_or_app; right; now left |].
        rewrite with_key_empty; [reflexivity |].
        intros H. apply in_map_iff in H as (y & Hky & Hy).
        apply Hnew. rewrite <- Hky. now apply Hcover.
Qed.

Lemma groupBy_groups_keyed (k : value -> Z) (xs : list value) :
  forall pre gs,
    groups_of k pre gs ->
    exists gs',
      for_of
        (fun (groups : list group) i =>
           stepping (call_func (Some (key_arg k)) [i]) (fun key =>
           Continue [] (groupBy_turn groups key i)))
        (map as_group gs) xs None
      = ([], Ok (map as_group gs')) /\
      groups_of k (pre ++ xs) gs'.
Proof.
  induction xs as [| x xs IH]; intros pre gs Hgs.
  - exists gs. rewrite app_nil_r. now split.
  - cbn [for_of call_func get_func key_arg unary func bind stepping nth].
    destruct Hgs as (Hnd & Hrest).
    rewrite (groupBy_turn_keyed (k x) x gs Hnd).
    destruct (IH (pre ++ [x]) (keyed_turn gs (k x) x)
                (groups_of_turn k pre gs x (conj Hnd Hrest)))
      as (gs' & Hloop & Hgs').
    exists gs'.
    cbn [for_of call_func get_func key_arg unary func bind stepping nth]
      in Hloop.
    rewrite Hloop. rewrite <- app_assoc in Hgs'. now split.
Qed.

(** [groupBy] on an array with a selector of numeric keys hands the value
    selector one group per key of the source and no two groups of the same
    key; the group of a key holds the items of that key in the order of
    the source, the first of them left out. *)
Theorem groupBy_numeric_keys (k : value -> Z) (sel : value -> value)
    (xs : list value) :
  exists gs : list keyed_group,
    groupBy (VArr xs) (Some (key_arg k)) (Some (unary sel))
    = Ok (VGen (map (fun g => sel (VGroup (VNum (fst g)) (snd g))) gs)
               None) /\
    NoDup (map fst gs) /\
    (forall x, In x xs -> In (k x) (map fst gs)) /\
    (forall g, In g gs ->
               In (fst g) (map k xs) /\
               snd g = tl (with_key k (fst g) xs)).
Proof.
  destruct (groupBy_groups_keyed k xs [] []) as (gs & Hloop & Hgs).
  { split; [constructor |]. split; [intros x [] | intros g []]. }
  exists gs. split; [| exact Hgs].
  unfold groupBy, groupBy_groups, for_of_value, and_then.
  cbn [iterate fst snd]. change (@nil group) with (map as_group []).
  rewrite Hloop. cbn [fst snd app].
  rewrite (for_of_continue _ tt (fun g => [sel g])) by reflexivity.
  rewrite flat_map_singleton, !map_map. reflexivity.
Qed.

(** ** What the fused sort returns for several keys *)

(** The number the comparator derives from the kind of a selector. *)
Lemma desc_of_kind (t : QueryFunc) (a : list PartArgument) :
  desc_of (part t a)
  = if QueryFunc_eq_dec t QF_orderByDescending then 1 else -1.
Proof. destruct t; reflexivity. Qed.

Section SeveralKeys.

Variable sels : list key_selector.

Lemma comparator_several_keys (ss : list key_selector) (a b : value) :
  comparator (map ordering_part ss) a b = Ok (lex ss a b).
Proof.
  induction ss as [| s ss IH]; [reflexivity |].
  cbn [map lex].
  cbn [comparator ordering_part part args type nth_error key_arg unary
       call_func get_func func bind nth].
  unfold js_gt, js_lt. rewrite js_compare_numbers.
  destruct (snd s a ?= snd s b); [exact IH | reflexivity | reflexivity].
Qed.

Lemma lex_antisym (ss : list key_selector) (a b : value) :
  lex ss b a = - lex ss a b.
Proof.
  induction ss as [| s ss IH]; [reflexivity |].
  cbn [lex]. rewrite (Z.compare_antisym (snd s a) (snd s b)).
  destruct (snd s a ?= snd s b); cbn [CompOpp]; [exact IH | lia | lia].
Qed.

Lemma lex_same_keys (ss : list key_selector) (a b : value) :
  same_keys ss a b = true -> lex ss a b = 0.
Proof.
  unfold same_keys. induction ss as [| s ss IH]; [reflexivity |].
  cbn [forallb lex]. intros H. apply andb_true_iff in H as [Hs H].
  apply Z.eqb_eq in Hs. rewrite <- Hs, Z.compare_refl. now apply IH.
Qed.

Lemma same_keys_both (ss : list key_selector) (z a b : value) :
  same_keys ss z a = true -> same_keys ss z b = true ->
  same_keys ss a b = true.
Proof.
  unfold same_keys. induction ss as [| s ss IH]; [reflexivity |].
  cbn [forallb]. intros Ha Hb.
  apply andb_true_iff in Ha as [Ha Ha'].
  apply andb_true_iff in Hb as [Hb Hb'].
  apply andb_true_iff. split; [| now apply IH].
  apply Z.eqb_eq in Ha, Hb. apply Z.eqb_eq. congruence.
Qed.

Lemma lex_is_keys_order (ss : list key_selector) (a b : value) :
  lex ss a b <= 0 -> keys_order ss a b.
Proof.
  induction ss as [| s ss IH]; [now intros _ |].
  cbn [lex keys_order]. unfold ordering_part, key_order.
  rewrite desc_of_kind.
  destruct (Z.compare_spec (snd s a) (snd s b)) as [Heq | Hlt | Hgt];
    intros H.
  - right. split; [exact Heq | now apply IH].
  - left. split; [lia |].
    destruct (QueryFunc_eq_dec (fst s) QF_orderByDescending); lia.
  - left. split; [lia |].
    destruct (QueryFunc_eq_dec (fst s) QF_orderByDescending); lia.
Qed.

Lemma insert_several_keys (x : value) (s : list value) :
  Sorted (lex_precedes sels) s ->
  exists zs,
    insert (comparator (map ordering_part sels)) x s = Ok zs /\
    Permutation (x :: s) zs /\
    Sorted (lex_precedes sels) zs /\
    (forall y, HdRel (lex_precedes sels) y s -> (lex_precedes sels) y x ->
               HdRel (lex_precedes sels) y zs) /\
    (forall z, with_keys sels z zs = with_keys sels z (x :: s)).
Proof.
  induction s as [| y s IH]; intros Hs.
  - exists [x]. cbn [insert]. repeat apply conj; auto.
  - cbn [insert]. rewrite comparator_several_keys. cbn [bind].
    destruct (Z.leb_spec (lex sels x y) 0) as [Hle | Hgt].
    + exists (x :: y :: s). repeat apply conj; auto.
    + inversion Hs as [| ? ? Hs' Hhd]; subst.
      destruct (IH Hs') as (zs & -> & Hperm & Hsorted & Hhead & Hkeys).
      exists (y :: zs). cbn [bind]. repeat apply conj.
      * reflexivity.
      * rewrite perm_swap. now apply perm_skip.
      * constructor; [exact Hsorted |].
        apply Hhead; [exact Hhd |].
        unfold lex_precedes. rewrite lex_antisym. lia.
      * intros y0 Hy0 _. inversion Hy0; subst. now constructor.
      * intros z. unfold with_keys in *. cbn [filter].
        specialize (Hkeys z). cbn [filter] in Hkeys.
        destruct (same_keys sels z x) eqn:Hx,
                 (same_keys sels z y) eqn:Hy;
          rewrite Hkeys; try reflexivity.
        pose proof (lex_same_keys sels x y (same_keys_both sels z x y Hx Hy)).
        lia.
Qed.

Lemma insertion_sort_several_keys (xs : list value) :
  exists zs,
    insertion_sort (comparator (map ordering_part sels)) xs = Ok zs /\
    Permutation xs zs /\
    Sorted (lex_precedes sels) zs /\
    (forall z, with_keys sels z zs = with_keys sels z xs).
Proof.
  induction xs as [| x xs IH].
  - exists []. repeat apply conj; auto.
  - destruct IH as (s & Hs & Hperm & Hsorted & Hkeys).
    destruct (insert_several_keys x s Hsorted)
      as (zs & Hzs & Hperm' & Hsorted' & _ & Hkeys').
    exists zs. cbn [insertion_sort]. rewrite Hs. cbn [bind].
    repeat apply conj; [exact Hzs | | exact Hsorted' |].
    + rewrite <- Hperm'. now apply perm_skip.
    + intros z. rewrite Hkeys'. unfold with_keys in *. cbn [filter].
      now rewrite (Hkeys z).
Qed.

Lemma Sorted_keys_order (zs : list value) :
  Sorted (lex_precedes sels) zs -> Sorted (keys_order sels) zs.
Proof.
  induction 1 as [| a zs _ IH Hhd]; constructor; [exact IH |].
  destruct Hhd; constructor. now apply lex_is_keys_order.
Qed.

(** [orderBy] with a run of selectors of numeric keys returns a new array
    that holds the items of the source other than [undefined], each as
    often as the source, followed by its [undefined] items.  Neighbours
    are ordered by the first key on which they differ, in the direction
    the code gives the kind of that selector, and items that agree on
    every key stay in the order the source has them. *)
Theorem orderBy_several_keys (xs : list value) :
  exists sorted,
    orderBy (VArr xs) (map ordering_part sels)
    = Ok (VArr (sorted ++ undefined_items xs)) /\
    Permutation (defined_items xs) sorted /\
    Sorted (keys_order sels) sorted /\
    (forall z, with_keys sels z sorted = with_keys sels z (defined_items xs)).
Proof.
  destruct (insertion_sort_several_keys (defined_items xs))
    as (zs & Hzs & Hperm & Hsorted & Hkeys).
  exists zs. unfold orderBy, slice, sort. cbn [as_array bind].
  fold (defined_items xs). rewrite Hzs. cbn [bind].
  repeat apply conj;
    [reflexivity | exact Hperm | now apply Sorted_keys_order | exact Hkeys].
Qed.

End SeveralKeys.

(** ** What the fused sort returns for one key *)

Lemma lex_precedes_single (t : QueryFunc) (k : value -> Z) (a b : value) :
  lex_precedes [(t, k)] a b -> key_order t k a b.
Proof.
  intros H. apply lex_is_keys_order in H. cbn [keys_order fst snd] in H.
  destruct H as [[_ H] | [Heq _]]; [exact H |].
  unfold key_order. destruct (QueryFunc_eq_dec t QF_orderByDescending); lia.
Qed.

Lemma Sorted_key_order (t : QueryFunc) (k : value -> Z) (zs : list value) :
  Sorted (lex_precedes [(t, k)]) zs -> Sorted (key_order t k) zs.
Proof.
  induction 1 as [| a zs _ IH Hhd]; constructor; [exact IH |].
  destruct Hhd; constructor. now apply lex_precedes_single.
Qed.

Lemma with_key_of_item (t : QueryFunc) (k : value -> Z) (y : value)
    (xs : list value) :
  with_keys [(t, k)] y xs = with_key k (k y) xs.
Proof.
  unfold with_keys, with_key, same_keys. apply filter_ext. intros x.
  cbn [forallb snd]. apply andb_true_r.
Qed.

Lemma with_key_no_item (k : value -> Z) (z : Z) (xs : list value) :
  (forall x, In x xs -> k x <> z) -> with_key k z xs = [].
Proof.
  intros H. apply with_key_empty. intros Hin.
  apply in_map_iff in Hin as (x & Hx & Hin). now apply (H x).
Qed.

(** [orderBy] with one selector whose keys are numbers returns a new array
    that holds the items of the source other than [undefined], each as
    often as the source, followed by its [undefined] items.  The keys of
    the former never decrease for [orderByDescending] and never increase
    for [orderBy], [thenBy] and [thenByDescending], and items of equal key
    stay in the order the source has them. *)
Theorem orderBy_single_key (t : QueryFunc) (k : value -> Z)
    (xs : list value) :
  exists sorted,
    orderBy (VArr xs) [part t [key_arg k]]
    = Ok (VArr (sorted ++ undefined_items xs)) /\
    Permutation (defined_items xs) sorted /\
    Sorted (key_order t k) sorted /\
    (forall z, with_key k z sorted = with_key k z (defined_items xs)).
Proof.
  destruct (insertion_sort_several_keys [(t, k)] (defined_items xs))
    as (zs & Hzs & Hperm & Hsorted & Hkeys).
  exists zs. unfold orderBy, slice, sort. cbn [as_array bind].
  fold (defined_items xs).
  change [part t [key_arg k]] with (map ordering_part [(t, k)]).
  rewrite Hzs. cbn [bind].
  repeat apply conj;
    [reflexivity | exact Hperm | now apply Sorted_key_order |].
  intros z.
  destruct (existsb (fun x => k x =? z) (defined_items xs)) eqn:Hex.
  - apply existsb_exists in Hex as (y & _ & Hy). apply Z.eqb_eq in Hy.
    subst z. rewrite <- !(with_key_of_item t). apply Hkeys.
  - assert (Hno : forall x, In x (defined_items xs) -> k x <> z).
    { intros x Hx Heq.
      assert (existsb (fun x => k x =? z) (defined_items xs) = true)
        by (apply existsb_exists; exists x; split;
            [exact Hx | now apply Z.eqb_eq]).
      congruence. }
    rewrite !with_key_no_item; [reflexivity | exact Hno |].
    intros x Hx. apply Hno. now apply (Permutation_in x (Permutation_sym Hperm)).
Qed.

(** ** The throwing operators and their defaults *)

Lemma checked_returns (items : value) (r : result (bool * value))
    (v : value) :
  (len <- length_of items ;;
   if negb (truthy len) then Throw EmptySequence
   else r' <- r ;; if negb (fst r') then Throw NoMatch else Ok (snd r'))
  = Ok v ->
  exists xs, as_array items = Ok xs /\ xs <> [] /\ r = Ok (true, v).
Proof.
  intros H.
  destruct items as [| | b | n | | xs | k xs | ys e]; cbn in H;
    try discriminate.
  all: destruct xs as [| x xs]; [discriminate |].
  all: exists (x :: xs); split; [reflexivity |]; split; [discriminate |].
  all: destruct (Z.of_nat (length (x :: xs)) =? 0) eqn:E;
    [apply Z.eqb_eq in E; cbn [length] in E; lia |].
  all: cbn in H; rewrite ?E in H; cbn in H.
  all: destruct r as [[[] w] | err]; cbn in H; congruence.
Qed.

Lemma single_match (p : arg) (xs : list value) (v : value) :
  xs <> [] ->
  getSingle_loop p [] xs None = Ok (true, v) ->
  exists q, p = Some q /\ matching q xs = [v].
Proof.
  intros Hne H. destruct p as [q |].
  - exists q. split; [reflexivity |].
    rewrite getSingle_loop_matching in H.
    destruct (matching q xs) as [| m [| m' ms]]; congruence.
  - destruct xs; [congruence | discriminate].
Qed.

(** Whenever a throwing operator returns, its [OrDefault] variant returns
    the same item, on every input and with every argument.  When [single]
    returns, [first] and [last] return the item it returns. *)
Theorem throwing_operators_agree_with_their_defaults :
  (forall items p v,
     first items p = Ok v -> firstOrDefault items p = Ok v) /\
  (forall items p v,
     last items p = Ok v -> lastOrDefault items p = Ok v) /\
  (forall items p v,
     single items p = Ok v -> singleOrDefault items p = Ok v) /\
  (forall items i v,
     elementAt items i = Ok v -> elementAtOrDefault items i = Ok v) /\
  (forall items p v,
     single items p = Ok v -> first items p = Ok v /\ last items p = Ok v).
Proof.
  repeat apply conj.
  - intros items p v H. apply checked_returns in H
      as (_ & _ & _ & H). unfold firstOrDefault. now rewrite H.
  - intros items p v H. apply checked_returns in H
      as (_ & _ & _ & H). unfold lastOrDefault. now rewrite H.
  - intros items p v H. apply checked_returns in H
      as (_ & _ & _ & H). unfold singleOrDefault. now rewrite H.
  - intros items i v H. unfold elementAt, elementAtOrDefault in *.
    destruct (get_literal i) as [l |]; [| discriminate]. cbn [bind] in *.
    destruct (length_of items) as [len |]; [| discriminate].
    cbn [bind] in H. now destruct (js_gt l len).
  - intros items p v H. apply checked_returns in H
      as (xs & Hxs & Hne & H).
    assert (Hit : iterate items = (xs, None))
      by (destruct items; cbn in Hxs; try discriminate;
          injection Hxs as <-; reflexivity).
    unfold getSingle in H. rewrite Hit in H. cbn [fst snd] in H.
    apply single_match in H as (q & -> & Hm); [| exact Hne].
    assert (Hlen : length_of items = Ok (VNum (Z.of_nat (length xs))))
      by (destruct items; cbn in Hxs; try discriminate;
          injection Hxs as <-; reflexivity).
    assert (Ht : truthy (VNum (Z.of_nat (length xs))) = true).
    { cbn [truthy]. destruct (Z.eqb_spec (Z.of_nat (length xs)) 0);
        [destruct xs; [congruence | cbn [length] in *; lia] | reflexivity]. }
    split.
    + unfold first, getFirst. rewrite Hlen, Hit. cbn [bind fst snd].
      rewrite Ht. cbn [negb]. rewrite getFirst_loop_matching, Hm.
      reflexivity.
    + unfold last, getLast. rewrite Hlen. cbn [bind]. rewrite Ht.
      cbn [negb].
      assert (Hrev : match items with
                     | VArr xs0 | VGroup _ xs0 =>
                         getFirst_loop (Some q) (rev xs0) None
                     | _ => Ok (false, VNull)
                     end = getFirst_loop (Some q) (rev xs) None)
        by (destruct items; cbn in Hxs; try discriminate;
            injection Hxs as <-; reflexivity).
      rewrite Hrev, getFirst_loop_matching, matching_rev, Hm. reflexivity.
Qed.

Lemma throwing_operators_agree_with_their_defaults_witness :
  single (numbers [1; 2]) (Some (greater_than 1)) = Ok (VNum 2) /\
  first (numbers [1; 2]) (Some (greater_than 1)) = Ok (VNum 2) /\
  last (numbers [1; 2]) (Some (greater_than 1)) = Ok (VNum 2).
Proof.
  split; [reflexivity |].
  apply (proj2 (proj2 (proj2 (proj2
           throwing_operators_agree_with_their_defaults)))).
  reflexivity.
Defined.

(** ** Pipelines compose *)

Section Composition.

Variable js_add : value -> value -> value.
Variable js_div : value -> value -> value.

Lemma execute_loop_app (items : value) (ps qs : list QueryPart) :
  no_then ps = true ->
  forall val,
    execute_loop js_add js_div items (ps ++ qs) val []
    = (v <- execute_loop js_add js_div items ps val [] ;;
       execute_loop js_add js_div items qs v []).
Proof.
  induction ps as [| p ps IH]; intros Hps val; [reflexivity |].
  cbn [no_then forallb] in Hps. apply andb_true_iff in Hps as [Hp Hps].
  apply negb_true_iff in Hp.
  cbn [app execute_loop]. rewrite then_test_is_then_kind, Hp.
  cbn [length Z.of_nat truthy Z.eqb negb bind fst snd].
  destruct (handlePart js_add js_div val p) as [v | err]; cbn [bind];
    [now apply IH | reflexivity].
Qed.

Lemma execute_loop_source_unused (qs : list QueryPart) :
  no_then qs = true ->
  forall items items' val,
    execute_loop js_add js_div items qs val []
    = execute_loop js_add js_div items' qs val [].
Proof.
  induction qs as [| p qs IH]; intros Hqs items items' val; [reflexivity |].
  cbn [no_then forallb] in Hqs. apply andb_true_iff in Hqs as [Hp Hqs].
  apply negb_true_iff in Hp.
  cbn [execute_loop]. rewrite then_test_is_then_kind, Hp.
  cbn [length Z.of_nat truthy Z.eqb negb bind fst snd].
  destruct (handlePart js_add js_div val p) as [v | err]; cbn [bind];
    [now apply IH | reflexivity].
Qed.

(** Pipelines without [thenBy] parts compose: running [ps ++ qs] is
    running [ps] and then [qs] on what it returns, when that is not a
    value [execute] rejects as a source; when [ps] throws, [ps ++ qs]
    throws the same error. *)
Theorem pipelines_compose (items : value) (ps qs : list QueryPart) :
  no_then ps = true ->
  no_then qs = true ->
  (forall v,
     execute js_add js_div items (Some ps) = Ok v ->
     truthy v = true ->
     execute js_add js_div items (Some (ps ++ qs))
     = execute js_add js_div v (Some qs)) /\
  (forall err,
     execute js_add js_div items (Some ps) = Throw err ->
     execute js_add js_div items (Some (ps ++ qs)) = Throw err).
Proof.
  intros Hps Hqs.
  destruct ps as [| p ps].
  - split; [| discriminate]. intros v Hv _. cbn [execute] in Hv.
    injection Hv as ->. reflexivity.
  - cbn [app]. unfold execute, check.
    destruct (truthy items); cbn [negb bind];
      [| split; [discriminate | now intros err H]].
    change (p :: ps ++ qs) with ((p :: ps) ++ qs).
    rewrite (execute_loop_app items (p :: ps) qs Hps).
    split.
    + intros v Hv Ht. rewrite Hv. cbn [bind].
      destruct qs as [| q qs]; [reflexivity |].
      rewrite Ht. cbn [negb bind].
      now apply execute_loop_source_unused.
    + intros err Herr. now rewrite Herr.
Qed.

End Composition.

Lemma pipelines_compose_witness :
  no_then [part QF_defaultIfEmpty []] = true /\
  no_then [part QF_count [absent]] = true /\
  execute (fun _ _ => VNaN) (fun _ _ => VNaN) (numbers [3; 1; 2])
    (Some ([part QF_defaultIfEmpty []] ++ [part QF_count [absent]]))
  = execute (fun _ _ => VNaN) (fun _ _ => VNaN) (numbers [3; 1; 2])
      (Some [part QF_count [absent]]).
Proof.
  split; [reflexivity |]. split; [reflexivity |].
  apply (proj1 (pipelines_compose (fun _ _ => VNaN) (fun _ _ => VNaN)
                  (numbers [3; 1; 2]) [part QF_defaultIfEmpty []]
                  [part QF_count [absent]] eq_refl eq_refl));
    reflexivity.
Defined.
